(** * The LRC parser and the current-line lookup of [utils/lrc-parser]

    A shallow embedding of the two exported functions of the module,
    [parseLrc] and [getCurrentLine], together with the pieces of the
    JavaScript run time they call: IEEE 754 binary64 numbers, strings as
    sequences of UTF-16 code units, [String.prototype.split], [trim],
    [match] and [replace] for the two regular expressions of the parser,
    [parseInt], [parseFloat] and [Array.prototype.sort].

    Layout: the definitions come first (numbers, strings, the two regular
    expressions, number parsing, the parser and the lookup), the facts
    about them follow. *)

From Stdlib Require Import ZArith NArith List Ascii String Sorted Lia.
From Stdlib Require Import Floats.SpecFloat.
From stdpp Require Import gmap list.
Import ListNotations.

(** ** Numbers

    A JavaScript Number is an IEEE 754 binary64 value.  [spec_float] is the
    Standard Library's specification of such values (no NaN payload, which
    JavaScript does not expose either); the operations below are its
    operations at precision 53 and maximal exponent 1024, all rounding to
    nearest, ties to even. *)

Abbreviation number := spec_float.

Module Num.

Definition prec : Z := 53.
Definition emax : Z := 1024.

Definition NaN : number := S754_nan.
Definition zero : number := S754_zero false.

(** [a + b], [a - b], [a * b] and [a / b] on Numbers. *)
Definition add (a b : number) : number := SFadd prec emax a b.
Definition sub (a b : number) : number := SFsub prec emax a b.
Definition mul (a b : number) : number := SFmul prec emax a b.
Definition div (a b : number) : number := SFdiv prec emax a b.

(** The relational operators.  [a < b] is false when either side is NaN;
    [a >= b] is "neither NaN, and not [a < b]"; [a <= b] is "neither
    NaN, and not [b < a]". *)
Definition lt (a b : number) : bool :=
  match SFcompare a b with Some Lt => true | _ => false end.
Definition ge (a b : number) : bool :=
  match SFcompare a b with Some Lt | None => false | Some _ => true end.
Definition le (a b : number) : bool :=
  match SFcompare b a with Some Lt | None => false | Some _ => true end.
Definition gt (a b : number) : bool := lt b a.

(** The global function [isNaN] on a Number. *)
Definition isNaN (a : number) : bool :=
  match a with S754_nan => true | _ => false end.

(** The Number value of an integer: the integer itself when it is
    representable, the nearest binary64 value otherwise. *)
Definition of_Z (z : Z) : number := binary_normalize prec emax z 0 false.

(** The Number value of the decimal [m * 10^e] with [0 <= m], correctly
    rounded; [neg] is the sign, kept on a zero.  A non-negative power of
    ten is multiplied in exactly before the single rounding; a negative
    one is divided out, the division rounding the exact quotient once.
    (The language lets an engine approximate a literal of more than 20
    significant digits; the engines round it correctly, as is done
    here.) *)
Definition of_decimal (neg : bool) (m e : Z) : number :=
  match m with
  | Zpos p =>
      if (0 <=? e)%Z
      then binary_round prec emax neg (p * Z.to_pos (10 ^ e)) 0
      else SFdiv prec emax (S754_finite neg p 0)
                 (S754_finite false (Z.to_pos (10 ^ (- e))) 0)
  | _ => S754_zero neg
  end.

(** Numbers that are not NaN, not negative and, when finite and not
    zero, in canonical form (the form every operation above returns). *)
Definition wf_nonneg (a : number) : bool :=
  match a with
  | S754_zero _ => true
  | S754_infinity s => negb s
  | S754_nan => false
  | S754_finite s m e => negb s && bounded prec emax m e
  end.

End Num.

(** ** Strings

    A JavaScript string is a sequence of UTF-16 code units; a code unit is
    modelled by its number.  [lit] reads an ASCII literal as such a
    sequence. *)

Abbreviation jsstring := (list N).

Definition lit (s : string) : jsstring :=
  map N_of_ascii (list_ascii_of_string s).
Arguments lit s%_string.

Definition code (a : ascii) : N := N_of_ascii a.
Arguments code a%_char.

Definition is_char (a : ascii) (c : N) : bool := N.eqb c (code a).
Arguments is_char a%_char c.

(** [\d] without the [u] and [i] flags: the ten ASCII digits. *)
Definition is_digit (c : N) : bool := (N.leb 48 c && N.leb c 57)%bool.

(** The value of a digit. *)
Definition digit_val (c : N) : Z := Z.of_N c - 48.

(** LineTerminator: LF, CR, LS, PS. *)
Definition is_line_terminator (c : N) : bool :=
  (N.eqb c 10 || N.eqb c 13 || N.eqb c 8232 || N.eqb c 8233)%bool.

(** WhiteSpace or LineTerminator, the code units that [trim] and the
    number parsers strip: TAB, VT, FF, SP, NBSP, ZWNBSP, the members of the
    Unicode category Zs, and the line terminators. *)
Definition is_space (c : N) : bool :=
  (N.eqb c 9 || N.eqb c 11 || N.eqb c 12 || N.eqb c 32 || N.eqb c 160
   || N.eqb c 5760 || (N.leb 8192 c && N.leb c 8202) || N.eqb c 8239
   || N.eqb c 8287 || N.eqb c 12288 || N.eqb c 65279
   || is_line_terminator c)%bool.

Module Str.

(** [s.trimStart()], [s.trimEnd()] and [s.trim()]. *)
Fixpoint trimStart (s : jsstring) : jsstring :=
  match s with
  | c :: s' => if is_space c then trimStart s' else s
  | [] => []
  end.

Definition trimEnd (s : jsstring) : jsstring := rev (trimStart (rev s)).

Definition trim (s : jsstring) : jsstring := trimEnd (trimStart s).

(** [s.split(sep)] for a separator of one code unit: the pieces between
    the occurrences of [sep]; one more piece than there are occurrences,
    so the empty string gives one empty piece. *)
Fixpoint split (sep : N) (s : jsstring) : list jsstring :=
  match s with
  | [] => [[]]
  | c :: s' =>
      if N.eqb c sep then [] :: split sep s'
      else match split sep s' with
           | piece :: pieces => (c :: piece) :: pieces
           | [] => [[c]]
           end
  end.

(** The longest prefix of [s] whose code units satisfy [p], and the
    rest. *)
Fixpoint span (p : N -> bool) (s : jsstring) : jsstring * jsstring :=
  match s with
  | c :: s' =>
      if p c then let '(a, b) := span p s' in (c :: a, b) else ([], s)
  | [] => ([], [])
  end.

(** [Some rest] when [s] is [pre] followed by [rest]. *)
Fixpoint strip_prefix (pre s : jsstring) : option jsstring :=
  match pre, s with
  | [], _ => Some s
  | a :: pre', c :: s' => if N.eqb a c then strip_prefix pre' s' else None
  | _ :: _, [] => None
  end.

End Str.

(** ** Regular expressions

    A regular expression is modelled by its anchored matcher: the function
    that tries the pattern at the very start of a string and returns the
    captures and what follows the match.  [exec] is the search of
    [RegExp.prototype.exec] for a pattern without flags: the start
    positions are tried from left to right and the first that matches
    wins. *)

Record RegExpMatch := {
  before : jsstring;           (* the input up to the match *)
  captures : list jsstring;    (* match[1], match[2], ... *)
  after : jsstring             (* the input from the end of the match *)
}.

Abbreviation regexp := (jsstring -> option (list jsstring * jsstring)).

Module RegExp.

Fixpoint exec (re : regexp) (s : jsstring) : option RegExpMatch :=
  match re s with
  | Some (caps, rest) =>
      Some {| before := []; captures := caps; after := rest |}
  | None =>
      match s with
      | [] => None
      | c :: s' =>
          match exec re s' with
          | Some m => Some {| before := c :: before m;
                              captures := captures m;
                              after := after m |}
          | None => None
          end
      end
  end.

(** [s.match(re)] for a pattern without the [g] flag. *)
Definition String_match (s : jsstring) (re : regexp) : option RegExpMatch :=
  exec re s.

(** [s.replace(re, '')] for a pattern without the [g] flag: the first
    match is cut out, a string without a match is returned as it is. *)
Definition String_replace_empty (s : jsstring) (re : regexp) : jsstring :=
  match exec re s with
  | Some m => before m ++ after m
  | None => s
  end.

(** [match[i]], counting the captures from 1; [undefined] past the
    last. *)
Definition group (m : RegExpMatch) (i : nat) : jsstring :=
  nth (pred i) (captures m) [].

End RegExp.

(** [/\[(\d{2}):(\d{2}(?:\.\d{2,3})?)\]/]: an opening bracket, two digits,
    a colon, two digits, optionally a dot and two or three digits, a
    closing bracket.  After the two digits of the seconds the next code
    unit decides: a bracket ends the tag; a dot must be followed by two
    digits and then by a bracket, or by a third digit and a bracket (the
    greedy [{2,3}] takes the third digit when there is one, and giving it
    back cannot help, a digit not being a bracket). *)
Definition timeRegex : regexp := fun s =>
  match s with
  | c0 :: m1 :: m2 :: c3 :: s1 :: s2 :: r =>
      if (is_char "[" c0 && is_digit m1 && is_digit m2 && is_char ":" c3
          && is_digit s1 && is_digit s2)%bool
      then
        match r with
        | c6 :: r6 =>
            if is_char "]" c6 then Some ([[m1; m2]; [s1; s2]], r6)
            else if is_char "." c6 then
              match r6 with
              | f1 :: f2 :: c9 :: r9 =>
                  if (is_digit f1 && is_digit f2)%bool then
                    if is_char "]" c9
                    then Some ([[m1; m2]; [s1; s2; c6; f1; f2]], r9)
                    else if is_digit c9 then
                      match r9 with
                      | c10 :: r10 =>
                          if is_char "]" c10
                          then Some ([[m1; m2]; [s1; s2; c6; f1; f2; c9]], r10)
                          else None
                      | [] => None
                      end
                    else None
                  else None
              | _ => None
              end
            else None
        | [] => None
        end
      else None
  | _ => None
  end.

(** [(.*?)\}]: the lazy star first tries to stop, which needs a closing
    brace here; otherwise it takes one more code unit, which must not be a
    line terminator. *)
Fixpoint lazy_until_brace (s : jsstring) : option (jsstring * jsstring) :=
  match s with
  | [] => None
  | c :: s' =>
      if is_char "}" c then Some ([], s')
      else if is_line_terminator c then None
      else match lazy_until_brace s' with
           | Some (cap, rest) => Some (c :: cap, rest)
           | None => None
           end
  end.

(** [/\{(.*?)\}/]. *)
Definition styleRegex : regexp := fun s =>
  match s with
  | c :: s' =>
      if is_char "{" c then
        match lazy_until_brace s' with
        | Some (cap, rest) => Some ([cap], rest)
        | None => None
        end
      else None
  | [] => None
  end.

(** ** [parseInt] and [parseFloat] *)

(** The integer written by a sequence of decimal digits. *)
Definition digits_val (ds : jsstring) : Z :=
  fold_left (fun acc c => (10 * acc + digit_val c)%Z) ds 0%Z.

(** An optional sign: whether it is a minus, and the rest. *)
Definition read_sign (s : jsstring) : bool * jsstring :=
  match s with
  | c :: s' =>
      if is_char "-" c then (true, s')
      else if is_char "+" c then (false, s')
      else (false, s)
  | [] => (false, [])
  end.

(** [parseInt(s, 10)]: leading white space is skipped, a sign is read, and
    the longest run of decimal digits is the integer; NaN when the run is
    empty.  With the radix given as 10 no [0x] prefix is looked for. *)
Definition parseInt10 (s : jsstring) : number :=
  let '(neg, s1) := read_sign (Str.trimStart s) in
  let '(ds, _) := Str.span is_digit s1 in
  match ds with
  | [] => Num.NaN
  | _ => Num.of_decimal neg (digits_val ds) 0
  end.

(** The exponent part [e], [e+] or [e-] followed by at least one digit:
    its value and what follows it; 0 and the whole input when there is no
    such part. *)
Definition read_exponent (s : jsstring) : Z * jsstring :=
  match s with
  | c :: s' =>
      if (is_char "e" c || is_char "E" c)%bool then
        let '(eneg, s2) := read_sign s' in
        let '(ds, r) := Str.span is_digit s2 in
        match ds with
        | [] => (0%Z, s)
        | _ => (if eneg then (- digits_val ds)%Z else digits_val ds, r)
        end
      else (0%Z, s)
  | [] => (0%Z, [])
  end.

(** The longest prefix of [s] that is a decimal literal (StrDecimalLiteral):
    an optional sign, then [Infinity], or digits with an optional fraction
    and exponent, or a dot with digits and an optional exponent.  Returns
    the Number value of the prefix and what follows it, [None] when no
    prefix is a literal. *)
Definition scan_decimal_literal (s : jsstring) : option (number * jsstring) :=
  let '(neg, s1) := read_sign s in
  match Str.strip_prefix (lit "Infinity") s1 with
  | Some r => Some (S754_infinity neg, r)
  | None =>
      let '(ip, r1) := Str.span is_digit s1 in
      let '(fp, r2) :=
        match r1 with
        | c :: r =>
            if is_char "." c then
              let '(fp, r2) := Str.span is_digit r in
              match ip, fp with
              | [], [] => ([], r1)
              | _, _ => (fp, r2)
              end
            else ([], r1)
        | [] => ([], r1)
        end in
      match ip, fp with
      | [], [] => None
      | _, _ =>
          let '(ex, r3) := read_exponent r2 in
          Some (Num.of_decimal neg (digits_val (ip ++ fp))
                               (ex - Z.of_nat (length fp)), r3)
      end
  end.

(** [parseFloat(s)]: leading white space is skipped and the longest prefix
    that is a decimal literal is converted; what follows the prefix is
    ignored; NaN when no prefix is a literal. *)
Definition parseFloat (s : jsstring) : number :=
  match scan_decimal_literal (Str.trimStart s) with
  | Some (v, _) => v
  | None => Num.NaN
  end.

(** ** [Array.prototype.sort]

    [sort] with a comparison function is stable, and for a consistent
    comparison function the stable sorted order is unique, so that any
    stable algorithm models it.  This one inserts the elements from the
    last to the first; an element moves past those that compare strictly
    below it, which is when the comparison function returns a Number
    greater than zero (a NaN counts as zero). *)

Section ArraySort.
Context {A : Type} (comparefn : A -> A -> number).

Fixpoint sort_insert (x : A) (l : list A) : list A :=
  match l with
  | [] => [x]
  | y :: l' =>
      if Num.gt (comparefn x y) Num.zero then y :: sort_insert x l'
      else x :: l
  end.

Definition Array_sort (l : list A) : list A := foldr sort_insert [] l.
End ArraySort.

(** ** The parser *)

(** A style value: [string | number]. *)
Inductive StyleValue :=
| StyleString (s : jsstring)
| StyleNumber (n : number).

(** The style object, [{ [key: string]: string | number }], as a finite
    map. *)
Abbreviation StyleObject := (gmap jsstring StyleValue).

(** [obj[key] = v] on an object made by the literal [{}].  The key becomes
    an own property, a later write replacing an earlier one, with one
    exception of the language: [__proto__] is an accessor inherited from
    [Object.prototype], and its setter ignores a value that is neither an
    object nor null, so that writing a string or a number under that key
    changes nothing. *)
Definition Object_set (obj : StyleObject) (key : jsstring) (v : StyleValue)
  : StyleObject :=
  if decide (key = lit "__proto__") then obj else <[key := v]> obj.

Record LrcLine := {
  lineTime : number;            (* Time in seconds *)
  text : jsstring;
  style : option StyleObject
}.

(** A string in a condition: the empty string is false. *)
Definition truthy (s : jsstring) : bool :=
  match s with [] => false | _ :: _ => true end.

Definition LF : N := 10.

(** The callback of [forEach] on one [pair] of the style content.
    [const [key, val] = pair.split(':').map(s => s.trim())] binds the first
    two pieces; [val] is undefined, hence false, when there is one piece
    only. *)
Definition parse_pair (style : StyleObject) (pair : jsstring) : StyleObject :=
  match map Str.trim (Str.split (code ":") pair) with
  | key :: val :: _ =>
      if (truthy key && truthy val)%bool then
        let numVal := parseFloat val in
        Object_set style key
          (if Num.isNaN numVal then StyleString val else StyleNumber numVal)
      else style
  | _ => style
  end.

(** [style = {}; styleContent.split(',').forEach(...)]. *)
Definition parse_style (styleContent : jsstring) : StyleObject :=
  fold_left parse_pair (Str.split (code ",") styleContent) ∅.

(** The body of the loop over the lines: the record pushed for [line], if
    any. *)
Definition parse_line (line : jsstring) : option LrcLine :=
  match RegExp.String_match line timeRegex with
  | Some match_ =>
      let minutes := parseInt10 (RegExp.group match_ 1) in
      let seconds := parseFloat (RegExp.group match_ 2) in
      let totalSeconds := Num.add (Num.mul minutes (Num.of_Z 60)) seconds in
      let text := Str.trim (RegExp.String_replace_empty line timeRegex) in
      match RegExp.String_match text styleRegex with
      | Some styleMatch =>
          let styleContent := RegExp.group styleMatch 1 in
          let text := Str.trim (RegExp.String_replace_empty text styleRegex) in
          Some {| lineTime := totalSeconds; text := text;
                  style := Some (parse_style styleContent) |}
      | None =>
          Some {| lineTime := totalSeconds; text := text; style := None |}
      end
  | None => None
  end.

(** [for (const line of lines)], with [result] threaded through. *)
Fixpoint parse_lines (lines : list jsstring) (result : list LrcLine)
  : list LrcLine :=
  match lines with
  | [] => result
  | line :: lines' =>
      parse_lines lines'
        match parse_line line with
        | Some l => result ++ [l]
        | None => result
        end
  end.

Definition parseLrc (lrcContent : jsstring) : list LrcLine :=
  let lines := Str.split LF lrcContent in
  let result := parse_lines lines [] in
  Array_sort (fun a b => Num.sub (lineTime a) (lineTime b)) result.

(** ** The lookup *)

(** [for (let i = lines.length - 1; i >= 0; i--)], with [n] standing for
    [i + 1].  The index stays below the length, so that [lines[i]] is
    always there. *)
Fixpoint getCurrentLine_from (lines : list LrcLine) (currentTime : number)
  (n : nat) : option LrcLine :=
  match n with
  | O => None
  | S i =>
      match lines !! i with
      | Some l =>
          if Num.ge currentTime (lineTime l) then Some l
          else getCurrentLine_from lines currentTime i
      | None => None
      end
  end.

Definition getCurrentLine (lines : list LrcLine) (currentTime : number)
  : option LrcLine :=
  getCurrentLine_from lines currentTime (length lines).

(** ** The vocabulary of the properties *)

(** [a.lineTime <= b.lineTime]. *)
Definition time_le (a b : LrcLine) : Prop :=
  Num.le (lineTime a) (lineTime b) = true.

(** The two shapes of a field of a timestamp tag: two digits for the
    minutes; two digits, optionally followed by a dot and two or three
    digits, for the seconds. *)
Definition two_digits (g : jsstring) : bool :=
  match g with
  | [a; b] => is_digit a && is_digit b
  | _ => false
  end.

Definition seconds_field (g : jsstring) : bool :=
  match g with
  | [a; b] => is_digit a && is_digit b
  | [a; b; p; c; d] =>
      is_digit a && is_digit b && is_char "." p && is_digit c && is_digit d
  | [a; b; p; c; d; e] =>
      is_digit a && is_digit b && is_char "." p && is_digit c && is_digit d
      && is_digit e
  | _ => false
  end.

(** The text of the tag with fields [g1] and [g2]: [[g1:g2]]. *)
Definition tag (g1 g2 : jsstring) : jsstring :=
  code "[" :: g1 ++ code ":" :: g2 ++ [code "]"].

(** [line] has a well-formed tag right after [pre], followed by [post]. *)
Definition tag_at (line pre g1 g2 post : jsstring) : Prop :=
  line = pre ++ tag g1 g2 ++ post /\
  two_digits g1 = true /\ seconds_field g2 = true.

(** ... and no well-formed tag starts further left. *)
Definition first_tag (line pre g1 g2 post : jsstring) : Prop :=
  tag_at line pre g1 g2 post /\
  forall pre' g1' g2' post',
    tag_at line pre' g1' g2' post' -> length pre <= length pre'.

(** The numbers written by the two fields: the integer of the minutes, and
    the decimal of the seconds, whose digits are read as one integer, to be
    divided by 100 when two digits follow the dot and by 1000 when three
    do. *)
Definition minutes_value (g1 : jsstring) : number := Num.of_Z (digits_val g1).

Definition seconds_value (g2 : jsstring) : number :=
  match g2 with
  | [a; b] => Num.of_decimal false (digits_val [a; b]) 0
  | [a; b; _; c; d] => Num.of_decimal false (digits_val [a; b; c; d]) (-2)
  | [a; b; _; c; d; e] => Num.of_decimal false (digits_val [a; b; c; d; e]) (-3)
  | _ => Num.NaN
  end.

(** [minutes * 60 + seconds]. *)
Definition tag_time (g1 g2 : jsstring) : number :=
  Num.add (Num.mul (minutes_value g1) (Num.of_Z 60)) (seconds_value g2).

(** [s] carries an annotation: an opening brace, then a closing brace
    further right, with no line terminator between the two. *)
Definition has_annotation (s : jsstring) : Prop :=
  exists a c b,
    s = a ++ code "{" :: c ++ code "}" :: b /\
    Forall (fun x => is_line_terminator x = false) c.

(** The same as a scan from left to right; [open] records that an opening
    brace has been met with no line terminator since. *)
Fixpoint brace_scan (open : bool) (s : jsstring) : bool :=
  match s with
  | [] => false
  | c :: s' =>
      if (is_char "}" c && open)%bool then true
      else if is_char "{" c then brace_scan true s'
      else if is_line_terminator c then brace_scan false s'
      else brace_scan open s'
  end.

(** A code unit that is none of [{], [}] and the line terminators. *)
Definition plain (c : N) : bool :=
  negb (is_char "{" c || is_char "}" c || is_line_terminator c).

(** The value the callback stores for a retained value [val]: the number
    of its longest prefix that is a decimal literal when there is one, the
    string itself otherwise. *)
Definition stored_value (val : jsstring) : StyleValue :=
  match scan_decimal_literal val with
  | Some (v, _) => StyleNumber v
  | None => StyleString val
  end.

(** The reading of "numeric value" in the specification ("numeric values
    parse as floating point; anything else is retained as a string"): [s]
    is a numeric value when the whole of it is a decimal literal. *)
Definition numeric_value (s : jsstring) : bool :=
  match scan_decimal_literal s with
  | Some (_, []) => true
  | _ => false
  end.

(** The split the specification describes ("split each resulting segment
    on the first [:]; trim both key and value"): the key is what comes
    before the first colon, the value all that comes after it. *)
Definition split_first_colon (seg : jsstring) : option (jsstring * jsstring) :=
  let '(k, r) := Str.span (fun c => negb (is_char ":" c)) seg in
  match r with
  | _ :: v => Some (Str.trim k, Str.trim v)
  | [] => None
  end.

(** [val] starts like a number: after an optional sign comes [Infinity],
    a digit, or a dot and a digit. *)
Definition starts_numeric (val : jsstring) : bool :=
  let '(_, s1) := read_sign val in
  match Str.strip_prefix (lit "Infinity") s1 with
  | Some _ => true
  | None =>
      match s1 with
      | c :: r =>
          is_digit c
          || (is_char "." c && match r with d :: _ => is_digit d | [] => false end)
      | [] => false
      end
  end.

Definition no_colon (s : jsstring) : Prop :=
  Forall (fun c => is_char ":" c = false) s.

Definition no_comma (s : jsstring) : Prop :=
  Forall (fun c => c <> code ",") s.

(** A segment of a style annotation that lacks its key or its value: no
    colon at all, nothing but white space before the first colon, or
    nothing but white space between the first colon and the second (or
    the end). *)
Inductive malformed_pair : jsstring -> Prop :=
| malformed_no_colon seg :
    no_colon seg -> malformed_pair seg
| malformed_no_key k rest :
    no_colon k -> Str.trim k = [] -> malformed_pair (k ++ code ":" :: rest)
| malformed_no_value k v :
    no_colon k -> no_colon v -> Str.trim v = [] ->
    malformed_pair (k ++ code ":" :: v)
| malformed_no_value_more k v more :
    no_colon k -> no_colon v -> Str.trim v = [] ->
    malformed_pair (k ++ code ":" :: v ++ code ":" :: more).

(** A record with the given time, for the examples. *)
Definition line_at (t : number) (s : string) : LrcLine :=
  {| lineTime := t; text := lit s; style := None |}.

(** ** The lyric video component

    The component that renders the parsed lines ([LyricVideo], in two
    versions).  For each frame it computes the index of the active line,
    and for each line near it the clocks of its animations and the
    overrides its style asks for.  [currentTime] is [frame / fps]. *)

(** [let index = -1; for (let i = 0; i < lines.length; i++) { if
    (currentTime >= lines[i].lineTime) index = i; else break; }], with
    [fuel] the number of iterations left. *)
Fixpoint activeIndex_from (lines : list LrcLine) (currentTime : number)
  (fuel i : nat) (index : Z) : Z :=
  match fuel with
  | O => index
  | S fuel' =>
      match lines !! i with
      | Some l =>
          if Num.ge currentTime (lineTime l)
          then activeIndex_from lines currentTime fuel' (S i) (Z.of_nat i)
          else index
      | None => index
      end
  end.

Definition activeIndex (lines : list LrcLine) (currentTime : number) : Z :=
  activeIndex_from lines currentTime (length lines) 0 (-1).

(** The two tests that open the callback of [lines.map]: a line is left
    out when [index < activeIndex - 1 || index > activeIndex], and when
    its text is empty. *)
Definition line_considered (activeIndex : Z) (index : nat) (line : LrcLine)
  : bool :=
  negb ((Z.of_nat index <? activeIndex - 1)%Z
        || (activeIndex <? Z.of_nat index)%Z)
  && truthy (text line).

(** [timeSinceStart] and [timeSinceEnd] of the line at [index]: the end
    of a line is the start of the next one, and three seconds after its
    own start when it is the last. *)
Definition timeSinceStart (currentTime : number) (line : LrcLine) : number :=
  let startTime := lineTime line in
  Num.sub currentTime startTime.

Definition timeSinceEnd (lines : list LrcLine) (currentTime : number)
  (index : nat) (line : LrcLine) : number :=
  let startTime := lineTime line in
  let nextLine := lines !! S index in
  let endTime :=
    match nextLine with
    | Some next => lineTime next
    | None => Num.add startTime (Num.of_Z 3)
    end in
  Num.sub currentTime endTime.

(** [line.style || {}]. *)
Definition customStyle (line : LrcLine) : StyleObject :=
  match style line with
  | Some s => s
  | None => ∅
  end.

(** [typeof customStyle.size === 'number' ? customStyle.size :
    baseFontSize] and [typeof customStyle.color === 'string' ?
    customStyle.color : primaryColor].  Neither [size] nor [color] is a
    property of [Object.prototype], so that reading them finds the own
    property or nothing. *)
Definition customSize (line : LrcLine) (baseFontSize : number) : number :=
  match customStyle line !! lit "size" with
  | Some (StyleNumber n) => n
  | _ => baseFontSize
  end.

Definition activeColor (line : LrcLine) (primaryColor : jsstring) : jsstring :=
  match customStyle line !! lit "color" with
  | Some (StyleString s) => s
  | _ => primaryColor
  end.

(** [customStyle.exit === 'scatter'] and [customStyle.escalate ===
    'diag']: strict equality with a string. *)
Definition style_is (line : LrcLine) (key value : string) : bool :=
  match customStyle line !! lit key with
  | Some (StyleString s) => bool_decide (s = lit value)
  | _ => false
  end.

Definition isScatter (line : LrcLine) : bool := style_is line "exit" "scatter".
Definition isDiagonal (line : LrcLine) : bool := style_is line "escalate" "diag".

(** [t.includes(c)] for a string [c] of one code unit. *)
Definition includes_unit (c : N) (t : jsstring) : bool := existsb (N.eqb c) t.

(** The fullwidth exclamation mark, U+FF01. *)
Definition FULLWIDTH_EXCLAMATION : N := 65281.

(** [function hasExclamation(t) { return t.includes('!') ||
    t.includes('！'); }]. *)
Definition hasExclamation (t : jsstring) : bool :=
  includes_unit (code "!") t || includes_unit FULLWIDTH_EXCLAMATION t.

(** [getEmphasis]: 2.5 for a text with an exclamation mark, 1.8 for a
    text of one to four code units, 1.2 otherwise. *)
Definition getEmphasis (text : jsstring) : number :=
  let isShort := (0 <? length text) && (length text <=? 4) in
  let hasExclamation :=
    includes_unit FULLWIDTH_EXCLAMATION text || includes_unit (code "!") text in
  if hasExclamation then Num.of_decimal false 25 (-1)
  else if isShort then Num.of_decimal false 18 (-1)
  else Num.of_decimal false 12 (-1).

(** ** More vocabulary *)

(** The record [l] has the time [v], as [<=] both ways: the two zeros
    are the same time. *)
Definition same_time (v : number) (l : LrcLine) : bool :=
  Num.le (lineTime l) v && Num.le v (lineTime l).

(** The global function [isFinite] on a Number: neither NaN nor an
    infinity. *)
Definition isFinite (x : number) : bool :=
  match x with
  | S754_zero _ | S754_finite _ _ _ => true
  | _ => false
  end.

(** What holds of every entry of a style: the key is not empty, is
    trimmed, is not [__proto__] and has no colon and no comma; a number
    is not NaN; a string is not empty, is trimmed, does not start like a
    number and has no colon and no comma. *)
Definition entry_ok (k : jsstring) (x : StyleValue) : Prop :=
  k <> [] /\ Str.trim k = k /\ k <> lit "__proto__" /\
  Forall (fun c => c <> code ":" /\ c <> code ",") k /\
  match x with
  | StyleNumber n => Num.isNaN n = false
  | StyleString s =>
      s <> [] /\ Str.trim s = s /\ starts_numeric s = false /\
      Forall (fun c => c <> code ":" /\ c <> code ",") s
  end.

(** Equality of Numbers as values of [spec_float] is decidable. *)
#[local] Instance number_eq_dec : EqDecision number.
Proof. solve_decision. Defined.

(** * Facts about numbers

    The operations of [spec_float] come without lemmas; what the parser
    and the sort need is proved here: the results of rounding are in
    canonical form, never NaN, and the sign of a difference decides the
    order. *)

Section NumberFacts.
Import Num.
Local Open Scope Z_scope.

(** ** Binary digits *)

Lemma digits2_pos_bounds (p : positive) :
  2 ^ (Z.pos (digits2_pos p) - 1) <= Z.pos p < 2 ^ Z.pos (digits2_pos p).
Proof.
  induction p as [p IH | p IH |]; cbn [digits2_pos].
  - rewrite Pos2Z.inj_succ.
    replace (Z.succ (Z.pos (digits2_pos p)) - 1) with (Z.succ (Z.pos (digits2_pos p) - 1)) by lia.
    rewrite !Z.pow_succ_r by lia. lia.
  - rewrite Pos2Z.inj_succ.
    replace (Z.succ (Z.pos (digits2_pos p)) - 1) with (Z.succ (Z.pos (digits2_pos p) - 1)) by lia.
    rewrite !Z.pow_succ_r by lia. lia.
  - cbn. lia.
Qed.

Lemma Zdigits2_nonneg m : 0 <= Zdigits2 m.
Proof. destruct m; cbn; lia. Qed.

Lemma Zdigits2_pos_iff m : 0 <= m -> (0 < Zdigits2 m <-> 0 < m).
Proof. destruct m; cbn; lia. Qed.

Lemma Zdigits2_lower k m : 0 <= k -> 2 ^ k <= m -> k + 1 <= Zdigits2 m.
Proof.
  intros Hk Hm.
  assert (0 < 2 ^ k) by (apply Z.pow_pos_nonneg; lia).
  destruct m as [| p | p]; try lia. cbn.
  destruct (digits2_pos_bounds p) as [_ Hu].
  destruct (Z_lt_le_dec (Z.pos (digits2_pos p)) (k + 1)) as [Hlt | ]; [| lia].
  exfalso.
  assert (2 ^ Z.pos (digits2_pos p) <= 2 ^ k) by (apply Z.pow_le_mono_r; lia).
  lia.
Qed.

Lemma Zdigits2_mono a b : 0 <= a <= b -> Zdigits2 a <= Zdigits2 b.
Proof.
  intros [Ha Hab].
  destruct a as [| p | p]; [apply Zdigits2_nonneg | | lia].
  cbn [Zdigits2].
  destruct (digits2_pos_bounds p) as [Hl _].
  pose proof (Zdigits2_lower (Z.pos (digits2_pos p) - 1) b). lia.
Qed.

(** Shifting right by one takes one digit away, and shifting left adds
    one. *)
Lemma shr_1_digits mrs :
  0 <= shr_m mrs ->
  0 <= shr_m (shr_1 mrs) /\
  Zdigits2 (shr_m (shr_1 mrs)) = Z.max (Zdigits2 (shr_m mrs) - 1) 0.
Proof.
  destruct mrs as [m r s]. cbn [shr_m]. intros Hm.
  destruct m as [| [p | p |] | p]; cbn; try lia.
Qed.

Lemma iter_shr_1_digits p : forall mrs,
  0 <= shr_m mrs ->
  0 <= shr_m (SpecFloat.iter_pos shr_1 p mrs) /\
  Zdigits2 (shr_m (SpecFloat.iter_pos shr_1 p mrs)) = Z.max (Zdigits2 (shr_m mrs) - Z.pos p) 0.
Proof.
  induction p as [p IH | p IH |]; intros mrs Hm; cbn [SpecFloat.iter_pos].
  - destruct (shr_1_digits mrs Hm) as [H1 E1].
    destruct (IH _ H1) as [H2 E2].
    destruct (IH _ H2) as [H3 E3].
    split; [assumption |]. rewrite E3, E2, E1. lia.
  - destruct (IH _ Hm) as [H2 E2].
    destruct (IH _ H2) as [H3 E3].
    split; [assumption |]. rewrite E3, E2. lia.
  - destruct (shr_1_digits mrs Hm) as [H1 E1]. split; [assumption |]. rewrite E1. lia.
Qed.

Lemma iter_xO_digits d : forall m,
  Z.pos (digits2_pos (Pos.iter xO m d)) = Z.pos (digits2_pos m) + Z.pos d.
Proof.
  induction d as [| d IH] using Pos.peano_ind; intros m.
  - cbn. lia.
  - rewrite Pos.iter_succ. cbn [digits2_pos]. rewrite Pos2Z.inj_succ, IH. lia.
Qed.

Lemma iter_xO_val d : forall m, Z.pos (Pos.iter xO m d) = Z.pos m * 2 ^ Z.pos d.
Proof.
  induction d as [| d IH] using Pos.peano_ind; intros m.
  - cbn. lia.
  - rewrite Pos.iter_succ, Pos2Z.inj_xO, IH, Pos2Z.inj_succ, Z.pow_succ_r by lia. lia.
Qed.

(** ** Rounding

    A mantissa [m] with exponent [e] is in canonical form when
    [fexp (digits m + e) = e].  Rounding shifts the mantissa right until
    this holds, rounds it to nearest even, and shifts once more if the
    rounding carried into a new digit. *)

Local Abbreviation fexp64 := (fexp prec emax).

Lemma fexp64_eq z : fexp64 z = Z.max (z - 53) (-1074).
Proof. reflexivity. Qed.

Lemma shr_record_of_loc_m m l : shr_m (shr_record_of_loc m l) = m.
Proof. destruct l as [| []]; reflexivity. Qed.

Lemma round_nearest_even_bounds m l :
  m <= round_nearest_even m l <= m + 1.
Proof. destruct l as [| []]; cbn; try destruct (Z.even m); lia. Qed.

Lemma shr_fexp_canonical m e l :
  0 <= m -> e <= fexp64 (Zdigits2 m + e) ->
  0 <= shr_m (fst (shr_fexp prec emax m e l)) /\
  fexp64 (Zdigits2 (shr_m (fst (shr_fexp prec emax m e l)))
          + snd (shr_fexp prec emax m e l)) = snd (shr_fexp prec emax m e l) /\
  (-1074 <= e -> 0 < m ->
   0 < shr_m (fst (shr_fexp prec emax m e l)) /\
   -1074 <= snd (shr_fexp prec emax m e l)).
Proof.
  intros Hm He. unfold shr_fexp, shr.
  rewrite fexp64_eq in *.
  destruct (Z.max (Zdigits2 m + e - 53) (-1074) - e) as [| p | p] eqn:En;
    cbn [fst snd].
  - rewrite shr_record_of_loc_m, fexp64_eq. lia.
  - destruct (iter_shr_1_digits p (shr_record_of_loc m l)) as [H0 Hd].
    { now rewrite shr_record_of_loc_m. }
    rewrite shr_record_of_loc_m in Hd.
    split; [assumption |]. rewrite fexp64_eq, Hd.
    split; [lia |]. intros Hlo Hpos. split; [| lia].
    apply Zdigits2_pos_iff; [assumption |].
    apply Zdigits2_pos_iff in Hpos; [| assumption]. lia.
  - lia.
Qed.

Lemma binary_round_aux_wf s m e l :
  0 <= m -> e <= fexp64 (Zdigits2 m + e) ->
  match binary_round_aux prec emax s m e l with
  | S754_zero s' => s' = s /\ ~ (-1074 <= e /\ 0 < m)
  | S754_infinity s' => s' = s
  | S754_finite s' m' e' => s' = s /\ bounded prec emax m' e' = true
  | S754_nan => False
  end.
Proof.
  intros Hm He. unfold binary_round_aux.
  destruct (shr_fexp_canonical m e l Hm He) as (H1 & Q1 & P1).
  destruct (shr_fexp prec emax m e l) as [mrs1 e1]. cbn [fst snd] in *.
  set (m2 := round_nearest_even (shr_m mrs1) (loc_of_shr_record mrs1)).
  pose proof (round_nearest_even_bounds (shr_m mrs1) (loc_of_shr_record mrs1))
    as Hr. fold m2 in Hr.
  assert (Hm2 : 0 <= m2) by lia.
  assert (He2 : e1 <= fexp64 (Zdigits2 m2 + e1)).
  { pose proof (Zdigits2_mono (shr_m mrs1) m2 ltac:(lia)).
    rewrite fexp64_eq in *. lia. }
  destruct (shr_fexp_canonical m2 e1 loc_Exact Hm2 He2) as (H3 & Q3 & P3).
  destruct (shr_fexp prec emax m2 e1 loc_Exact) as [mrs3 e3]. cbn [fst snd] in *.
  destruct (shr_m mrs3) as [| m3 | m3] eqn:E3.
  - split; [reflexivity |]. intros [Hlo Hpos].
    destruct (P1 Hlo Hpos). destruct P3; lia.
  - destruct (e3 <=? emax - prec) eqn:Hle; [| reflexivity].
    split; [reflexivity |]. unfold bounded, canonical_mantissa.
    rewrite Hle, andb_true_r. apply Z.eqb_eq. exact Q3.
  - lia.
Qed.

Lemma binary_round_wf s p e :
  match binary_round prec emax s p e with
  | S754_zero s' => s' = s /\ ~ (-1074 <= e)
  | S754_infinity s' => s' = s
  | S754_finite s' m' e' => s' = s /\ bounded prec emax m' e' = true
  | S754_nan => False
  end.
Proof.
  unfold binary_round, shl_align.
  set (f := fexp64 (Z.pos (digits2_pos p) + e)).
  assert (Hf : f = Z.max (Z.pos (digits2_pos p) + e - 53) (-1074)) by reflexivity.
  destruct (f - e) as [| d | d] eqn:Ed.
  - pose proof (binary_round_aux_wf s (Z.pos p) e loc_Exact ltac:(lia)) as H.
    cbn [Zdigits2] in H. fold f in H. specialize (H ltac:(lia)).
    destruct (binary_round_aux prec emax s (Z.pos p) e loc_Exact); intuition lia.
  - pose proof (binary_round_aux_wf s (Z.pos p) e loc_Exact ltac:(lia)) as H.
    cbn [Zdigits2] in H. fold f in H. specialize (H ltac:(lia)).
    destruct (binary_round_aux prec emax s (Z.pos p) e loc_Exact); intuition lia.
  - pose proof (binary_round_aux_wf s (Z.pos (Pos.iter xO p d)) f loc_Exact
                  ltac:(lia)) as H.
    cbn [Zdigits2] in H. rewrite iter_xO_digits, fexp64_eq in H.
    specialize (H ltac:(lia)).
    destruct (binary_round_aux prec emax s (Z.pos (Pos.iter xO p d)) f loc_Exact);
      intuition lia.
Qed.

(** ** The operations of the parser return well-formed numbers *)

Lemma bounded_canonical m e :
  bounded prec emax m e = true ->
  Z.max (Z.pos (digits2_pos m) + e - 53) (-1074) = e /\ e <= 971.
Proof.
  unfold bounded, canonical_mantissa. rewrite andb_true_iff, Z.eqb_eq, Z.leb_le.
  rewrite fexp64_eq. intros [H1 H2]. split; [exact H1 | exact H2].
Qed.

Lemma wf_nonneg_round p e : wf_nonneg (binary_round prec emax false p e) = true.
Proof.
  pose proof (binary_round_wf false p e) as H.
  destruct (binary_round prec emax false p e) as [s | s | | s m' e'];
    cbn; try tauto.
  - now subst s.
  - destruct H as [-> ->]. reflexivity.
Qed.

Lemma wf_nonneg_round_aux m e l :
  0 <= m -> e <= fexp64 (Zdigits2 m + e) ->
  wf_nonneg (binary_round_aux prec emax false m e l) = true.
Proof.
  intros Hm He. pose proof (binary_round_aux_wf false m e l Hm He) as H.
  destruct (binary_round_aux prec emax false m e l) as [s | s | | s m' e'];
    cbn; try tauto.
  - now subst s.
  - destruct H as [-> ->]. reflexivity.
Qed.

Lemma wf_nonneg_add x y :
  wf_nonneg x = true -> wf_nonneg y = true -> wf_nonneg (add x y) = true.
Proof.
  destruct x as [sx | [] | | [] mx ex], y as [sy | [] | | [] my ey];
    cbn; intros Hx Hy; try discriminate; try reflexivity; try assumption.
  - destruct sx, sy; reflexivity.
  - apply wf_nonneg_round.
Qed.


Lemma SFdiv_core_binary_wf m1 e1 m2 e2 :
  0 < m1 -> 0 < m2 ->
  let '(q, e', _) := SFdiv_core_binary prec emax m1 e1 m2 e2 in
  0 <= q /\ e' <= fexp64 (Zdigits2 q + e').
Proof.
  intros H1 H2. unfold SFdiv_core_binary.
  set (d1 := Zdigits2 m1). set (d2 := Zdigits2 m2).
  set (e' := Z.min (fexp64 (d1 + e1 - (d2 + e2))) (e1 - e2)).
  set (s := e1 - e2 - e').
  assert (Hs : 0 <= s) by (unfold s, e'; lia).
  set (m' := match s with Z.pos _ => Z.shiftl m1 s | 0 => m1 | Z.neg _ => 0 end).
  assert (Hm' : m' = m1 * 2 ^ s).
  { unfold m'. destruct s as [| p | p]; [cbn; lia | | lia].
    now rewrite Z.shiftl_mul_pow2 by lia. }
  pose proof (Z_div_mod m' m2 ltac:(lia)) as Hdiv.
  destruct (Z.div_eucl m' m2) as [q r]. destruct Hdiv as [Hq Hr].
  assert (Hp : 0 < 2 ^ s) by (apply Z.pow_pos_nonneg; lia).
  assert (Hq0 : 0 <= q) by nia.
  split; [exact Hq0 |].
  assert (Hd : d1 + s - d2 <= Zdigits2 q).
  { destruct (Z_le_gt_dec (d1 + s - d2) 0) as [Hle | Hgt].
    { pose proof (Zdigits2_nonneg q). lia. }
    pose proof (Zdigits2_lower (d1 + s - d2 - 1) q ltac:(lia)) as HL.
    assert (2 ^ (d1 + s - d2 - 1) <= q); [| lia].
    assert (L1 : 2 ^ (d1 - 1) <= m1).
    { unfold d1. destruct m1 as [| p | p]; try lia. apply digits2_pos_bounds. }
    assert (U2 : m2 < 2 ^ d2).
    { unfold d2. destruct m2 as [| p | p]; try lia. apply digits2_pos_bounds. }
    assert (D1 : 0 < d1) by (unfold d1; destruct m1; cbn; lia).
    assert (D2 : 0 < d2) by (unfold d2; destruct m2; cbn; lia).
    assert (E : 2 ^ (d1 - 1) * 2 ^ s = 2 ^ (d1 + s - d2 - 1) * 2 ^ d2).
    { rewrite <- !Z.pow_add_r by lia. f_equal. lia. }
    assert (0 < 2 ^ (d1 + s - d2 - 1)) by (apply Z.pow_pos_nonneg; lia).
    nia. }
  unfold s in Hd. rewrite fexp64_eq in *. unfold e' in *. rewrite fexp64_eq in *.
  lia.
Qed.

Lemma wf_nonneg_of_decimal m e : wf_nonneg (of_decimal false m e) = true.
Proof.
  unfold of_decimal. destruct m as [| p | p]; try reflexivity.
  destruct (0 <=? e); [apply wf_nonneg_round |].
  cbn [SFdiv xorb].
  pose proof (SFdiv_core_binary_wf (Z.pos p) 0 (Z.pos (Z.to_pos (10 ^ (- e)))) 0
                ltac:(lia) ltac:(lia)) as H.
  destruct (SFdiv_core_binary prec emax (Z.pos p) 0
              (Z.pos (Z.to_pos (10 ^ (- e)))) 0) as [[q e'] l].
  destruct H. now apply wf_nonneg_round_aux.
Qed.

Lemma wf_nonneg_of_Z z : 0 <= z -> wf_nonneg (of_Z z) = true.
Proof.
  intros Hz. unfold of_Z, binary_normalize.
  destruct z as [| p | p]; [reflexivity | apply wf_nonneg_round | lia].
Qed.

(** ** Order

    On canonical numbers the comparison of [spec_float], which looks at
    the exponents first, is the comparison of the values. *)

(** Aligned mantissas: the value of a finite number in units of
    [2 ^ ez] for an exponent [ez] below its own. *)
Lemma shl_align_val m e ez :
  ez <= e -> Z.pos (fst (shl_align m e ez)) = Z.pos m * 2 ^ (e - ez).
Proof.
  intros H. unfold shl_align.
  destruct (ez - e) as [| d | d] eqn:E; cbn [fst].
  - replace (e - ez) with 0 by lia. cbn. lia.
  - lia.
  - rewrite iter_xO_val. f_equal. f_equal. lia.
Qed.

Lemma compare_finite_canonical m1 e1 m2 e2 :
  bounded prec emax m1 e1 = true -> bounded prec emax m2 e2 = true ->
  SFcompare (S754_finite false m1 e1) (S754_finite false m2 e2)
  = Some (Z.pos m1 * 2 ^ (e1 - Z.min e1 e2) ?= Z.pos m2 * 2 ^ (e2 - Z.min e1 e2)).
Proof.
  intros B1 B2. apply bounded_canonical in B1, B2.
  destruct B1 as [C1 _], B2 as [C2 _].
  destruct (digits2_pos_bounds m1) as [L1 U1], (digits2_pos_bounds m2) as [L2 U2].
  set (d1 := Z.pos (digits2_pos m1)) in *. set (d2 := Z.pos (digits2_pos m2)) in *.
  assert (P53 : 2 ^ 53 = 2 * 2 ^ 52) by reflexivity.
  cbn [SFcompare]. f_equal.
  destruct (Z.compare_spec e1 e2) as [E | E | E].
  - subst e2. rewrite Z.min_id, Z.sub_diag. cbn [Z.pow]. rewrite !Z.mul_1_r.
    reflexivity.
  - rewrite Z.min_l, Z.sub_diag by lia. cbn [Z.pow]. rewrite Z.mul_1_r.
    symmetry. apply Z.compare_lt_iff.
    assert (d2 = 53) by lia. assert (d1 <= 53) by lia.
    assert (2 ^ d1 <= 2 ^ 53) by (apply Z.pow_le_mono_r; lia).
    assert (2 ^ 1 <= 2 ^ (e2 - e1)) by (apply Z.pow_le_mono_r; lia).
    replace (d2 - 1) with 52 in L2 by lia. change (2 ^ 1) with 2 in *. nia.
  - rewrite Z.min_r, Z.sub_diag by lia. cbn [Z.pow]. rewrite Z.mul_1_r.
    symmetry. apply Z.compare_gt_iff.
    assert (d1 = 53) by lia. assert (d2 <= 53) by lia.
    assert (2 ^ d2 <= 2 ^ 53) by (apply Z.pow_le_mono_r; lia).
    assert (2 ^ 1 <= 2 ^ (e1 - e2)) by (apply Z.pow_le_mono_r; lia).
    replace (d1 - 1) with 52 in L1 by lia. change (2 ^ 1) with 2 in *. nia.
Qed.

(** The sign of a difference of well-formed non-negative numbers decides
    their order. *)
Lemma sub_gt_zero x y :
  wf_nonneg x = true -> wf_nonneg y = true ->
  if gt (sub x y) zero then le y x = true else le x y = true.
Proof.
  destruct x as [sx | [] | | [] mx ex], y as [sy | [] | | [] my ey];
    intros Hx Hy; try discriminate; try (cbn; reflexivity).
  - destruct sx, sy; reflexivity.
  - cbn in Hx, Hy. unfold gt, lt, le, sub. cbn [SFsub cond_Zopp].
    pose proof (compare_finite_canonical mx ex my ey Hx Hy) as Cxy.
    pose proof (compare_finite_canonical my ey mx ex Hy Hx) as Cyx.
    rewrite (Z.min_comm ey ex) in Cyx.
    apply bounded_canonical in Hx, Hy.
    set (ez := Z.min ex ey) in *.
    rewrite Cxy, Cyx.
    rewrite <- (shl_align_val mx ex ez), <- (shl_align_val my ey ez) by lia.
    set (X := Z.pos (fst (shl_align mx ex ez))).
    set (Y := Z.pos (fst (shl_align my ey ez))).
    clearbody X Y. unfold binary_normalize.
    destruct (X - Y) as [| p | p] eqn:D.
    + cbn. replace Y with X by lia. now rewrite Z.compare_refl.
    + pose proof (binary_round_wf false p ez) as W.
      destruct (binary_round prec emax false p ez) as [s | s | | s m' e'];
        cbn; try tauto.
      * lia.
      * subst s. cbn. destruct (Z.compare_spec X Y); (reflexivity || lia).
      * destruct W as [-> _]. cbn.
        destruct (Z.compare_spec X Y); (reflexivity || lia).
    + pose proof (binary_round_wf true p ez) as W.
      destruct (binary_round prec emax true p ez) as [s | s | | s m' e'];
        cbn; try tauto.
      * destruct (Z.compare_spec Y X); (reflexivity || lia).
      * subst s. cbn. destruct (Z.compare_spec Y X); (reflexivity || lia).
      * destruct W as [-> _]. cbn.
        destruct (Z.compare_spec Y X); (reflexivity || lia).
Qed.

(** [<=] is reflexive off NaN and transitive. *)
Lemma num_le_refl a : isNaN a = false -> le a a = true.
Proof.
  destruct a as [s | [] | | [] m e]; cbn; try easy;
    rewrite Z.compare_refl, Pos.compare_cont_refl; reflexivity.
Qed.

Lemma num_le_not_nan a b : le a b = true -> isNaN a = false /\ isNaN b = false.
Proof. destruct a as [| | |], b as [| | |]; cbn; easy. Qed.

Ltac cmp_cases :=
  repeat match goal with
    | |- context [Z.compare ?a ?b] =>
        destruct (Z.compare_spec a b); try subst; try lia
    | H : context [Z.compare ?a ?b] |- _ =>
        destruct (Z.compare_spec a b); try subst; try lia
    | |- context [Pos.compare_cont Eq ?a ?b] =>
        change (Pos.compare_cont Eq a b) with (Pos.compare a b);
        destruct (Pos.compare_spec a b); try subst; try lia
    | H : context [Pos.compare_cont Eq ?a ?b] |- _ =>
        change (Pos.compare_cont Eq a b) with (Pos.compare a b) in H;
        destruct (Pos.compare_spec a b); try subst; try lia
    end; cbn in *; try easy; try lia.

Lemma num_le_trans a b c : le a b = true -> le b c = true -> le a c = true.
Proof.
  unfold le.
  destruct a as [sa | [] | | [] ma ea], b as [sb | [] | | [] mb eb],
    c as [sc | [] | | [] mc ec]; cbn; try easy; intros H1 H2; cmp_cases.
Qed.

End NumberFacts.

(** * Facts about the sort *)

Section SortFacts.
Context {A : Type} (comparefn : A -> A -> number).

Lemma sort_insert_Permutation x l : sort_insert comparefn x l ≡ₚ x :: l.
Proof.
  induction l as [| y l IH]; cbn; [reflexivity |].
  destruct (Num.gt (comparefn x y) Num.zero); [| reflexivity].
  rewrite IH. apply Permutation_swap.
Qed.

Lemma Array_sort_Permutation l : Array_sort comparefn l ≡ₚ l.
Proof.
  induction l as [| x l IH]; cbn; [reflexivity |].
  rewrite sort_insert_Permutation. now rewrite IH.
Qed.

Context (key : A -> number).
Hypothesis comparefn_sub : forall a b, comparefn a b = Num.sub (key a) (key b).

Local Abbreviation R := (fun a b : A => Num.le (key a) (key b) = true).
Local Abbreviation ok := (fun a : A => Num.wf_nonneg (key a) = true).

Lemma sort_insert_HdRel x y l :
  ok x -> ok y -> Forall ok l ->
  R y x -> HdRel R y l -> HdRel R y (sort_insert comparefn x l).
Proof.
  intros Hx Hy Hl Ryx Hd. destruct l as [| z l]; cbn.
  - now constructor.
  - destruct (Num.gt (comparefn x z) Num.zero); constructor; [| assumption].
    now inversion Hd.
Qed.

Lemma sort_insert_Sorted x l :
  ok x -> Forall ok l -> Sorted R l -> Sorted R (sort_insert comparefn x l).
Proof.
  intros Hx. induction l as [| y l IH]; intros Hl Hs; cbn.
  - repeat constructor.
  - inversion Hl as [| ? ? Hy Hl']; subst. inversion Hs as [| ? ? Hs' Hd]; subst.
    pose proof (sub_gt_zero (key x) (key y) Hx Hy) as Hc.
    rewrite <- comparefn_sub in Hc.
    destruct (Num.gt (comparefn x y) Num.zero).
    + constructor; [now apply IH |]. now apply sort_insert_HdRel.
    + constructor; [assumption |]. now constructor.
Qed.

Lemma Array_sort_Sorted l : Forall ok l -> Sorted R (Array_sort comparefn l).
Proof.
  induction l as [| x l IH]; intros Hl; cbn; [constructor |].
  inversion Hl; subst. apply sort_insert_Sorted; [assumption | | now apply IH].
  eapply Permutation_Forall; [| eassumption].
  symmetry. apply Array_sort_Permutation.
Qed.
End SortFacts.

(** * Facts about strings and the two regular expressions *)

(** ** Code units *)

Lemma is_char_eq a c : is_char a c = true <-> c = code a.
Proof. unfold is_char. apply N.eqb_eq. Qed.

Lemma is_digit_range c : is_digit c = true <-> (48 <= c <= 57)%N.
Proof. unfold is_digit. rewrite andb_true_iff, !N.leb_le. tauto. Qed.

Lemma is_digit_not_char a c :
  is_digit c = true -> is_digit (code a) = false -> is_char a c = false.
Proof.
  intros Hc Ha. destruct (is_char a c) eqn:E; [| reflexivity].
  apply is_char_eq in E. congruence.
Qed.

Lemma is_digit_not_space c : is_digit c = true -> is_space c = false.
Proof.
  rewrite is_digit_range. intros H. unfold is_space, is_line_terminator.
  repeat match goal with
    | |- context [N.eqb c ?k] =>
        replace (N.eqb c k) with false by (symmetry; apply N.eqb_neq; lia)
    end.
  replace (N.leb 8192 c) with false by (symmetry; apply N.leb_gt; lia).
  reflexivity.
Qed.

(** Rewrites the tests on code units known to be digits, and on
    constants. *)
Ltac digits :=
  repeat match goal with
    | H : (_ && _)%bool = true |- _ => apply andb_true_iff in H; destruct H
    | H : is_char _ _ = true |- _ => apply is_char_eq in H; cbv in H; subst
    end;
  repeat match goal with
    | H : is_digit ?c = true |- context [is_digit ?c] => rewrite H
    | H : is_digit ?c = true |- context [is_space ?c] =>
        rewrite (is_digit_not_space c H)
    | H : is_digit ?c = true |- context [is_char ?a ?c] =>
        rewrite (is_digit_not_char a c H eq_refl)
    | H : is_digit ?c = true |- context [N.eqb ?k ?c] =>
        change (N.eqb k c) with (is_char (ascii_of_N k) c)
    end.

Lemma timeRegex_tag g1 g2 rest :
  two_digits g1 = true -> seconds_field g2 = true ->
  timeRegex (tag g1 g2 ++ rest) = Some ([g1; g2], rest).
Proof.
  destruct g1 as [| a [| b [| ? ?]]]; try discriminate.
  destruct g2 as [| c [| d [| p [| e [| f [| g [| ? ?]]]]]]]; try discriminate;
    cbn [two_digits seconds_field]; intros H1 H2; digits;
    cbn [tag app timeRegex]; digits; cbn; digits; reflexivity.
Qed.

Lemma timeRegex_inv s caps rest :
  timeRegex s = Some (caps, rest) ->
  exists g1 g2, caps = [g1; g2] /\ two_digits g1 = true /\
                seconds_field g2 = true /\ s = tag g1 g2 ++ rest.
Proof.
  unfold timeRegex. intros H.
  repeat match type of H with
    | match ?x with _ => _ end = _ => destruct x eqn:?; try discriminate
    | (if ?b then _ else _) = _ => destruct b eqn:?; try discriminate
    end;
  injection H as <- <-; digits;
  eexists _, _; (split; [reflexivity |]); cbn [two_digits seconds_field];
  repeat match goal with H : is_digit _ = true |- _ => rewrite H end;
  repeat split; reflexivity.
Qed.

(** ** The search *)

Section Exec.
Context (re : regexp).

Lemma exec_here s caps rest :
  re s = Some (caps, rest) ->
  RegExp.exec re s = Some {| before := []; captures := caps; after := rest |}.
Proof. intros H. destruct s; cbn; now rewrite H. Qed.

Lemma exec_skip pre : forall s,
  (forall i, i < length pre -> re (drop i (pre ++ s)) = None) ->
  RegExp.exec re (pre ++ s)
  = match RegExp.exec re s with
    | Some m => Some {| before := pre ++ before m; captures := captures m;
                        after := after m |}
    | None => None
    end.
Proof.
  induction pre as [| c pre IH]; intros s H.
  - cbn. destruct (RegExp.exec re s) as [[] |]; reflexivity.
  - pose proof (H 0 ltac:(cbn; lia)) as H0. cbn [drop app] in H0.
    cbn [app RegExp.exec]. rewrite H0, IH.
    + destruct (RegExp.exec re s); reflexivity.
    + intros i Hi. apply (H (S i)). cbn. lia.
Qed.

Lemma exec_Some s : forall m,
  RegExp.exec re s = Some m ->
  s = before m ++ drop (length (before m)) s /\
  re (drop (length (before m)) s) = Some (captures m, after m) /\
  forall i, i < length (before m) -> re (drop i s) = None.
Proof.
  induction s as [| c s IH]; intros m; cbn [RegExp.exec].
  - destruct (re []) as [[caps rest] |] eqn:E; [| discriminate].
    intros [= <-]. cbn. repeat split; [assumption | lia].
  - destruct (re (c :: s)) as [[caps rest] |] eqn:E.
    + intros [= <-]. cbn. repeat split; [assumption | lia].
    + destruct (RegExp.exec re s) as [m' |] eqn:E'; [| discriminate].
      intros [= <-]. cbn [before captures after length drop].
      destruct (IH m' eq_refl) as (H1 & H2 & H3).
      split; [cbn; now f_equal |]. split; [assumption |].
      intros [| i] Hi; [assumption | apply H3; lia].
Qed.

Lemma exec_None s :
  RegExp.exec re s = None -> forall i, re (drop i s) = None.
Proof.
  induction s as [| c s IH]; cbn [RegExp.exec].
  - destruct (re []) as [[caps rest] |] eqn:E; [discriminate |].
    intros _ i. now rewrite drop_nil.
  - destruct (re (c :: s)) as [[caps rest] |] eqn:E; [discriminate |].
    destruct (RegExp.exec re s) as [m' |] eqn:E'; [discriminate |].
    intros _ [| i]; [assumption | now apply IH].
Qed.
End Exec.

(** ** The leftmost tag is the match of [timeRegex] *)

Lemma first_tag_exec line pre g1 g2 post :
  first_tag line pre g1 g2 post ->
  RegExp.exec timeRegex line
  = Some {| before := pre; captures := [g1; g2]; after := post |}.
Proof.
  intros [(-> & H1 & H2) Hmin].
  rewrite exec_skip.
  - rewrite (exec_here _ _ _ _ (timeRegex_tag g1 g2 post H1 H2)). cbn.
    now rewrite app_nil_r.
  - intros i Hi.
    destruct (timeRegex (drop i (pre ++ tag g1 g2 ++ post)))
      as [[caps rest] |] eqn:E; [| reflexivity].
    exfalso. apply timeRegex_inv in E as (g1' & g2' & _ & T1 & T2 & E).
    specialize (Hmin (take i (pre ++ tag g1 g2 ++ post)) g1' g2' rest).
    rewrite length_take in Hmin.
    assert (i < length (pre ++ tag g1 g2 ++ post)) by (rewrite length_app; lia).
    enough (length pre <= i `min` length (pre ++ tag g1 g2 ++ post)) by lia.
    apply Hmin. split; [| tauto].
    rewrite <- E. symmetry. apply take_drop.
Qed.

Lemma exec_first_tag line m :
  RegExp.exec timeRegex line = Some m ->
  exists g1 g2, captures m = [g1; g2] /\
                first_tag line (before m) g1 g2 (after m).
Proof.
  intros H. apply exec_Some in H as (E & Hm & Hnone).
  apply timeRegex_inv in Hm as (g1 & g2 & Hc & T1 & T2 & Hd).
  exists g1, g2. split; [assumption |]. split.
  - split; [| tauto]. now rewrite <- Hd.
  - intros pre' g1' g2' post' (E' & T1' & T2').
    destruct (Nat.le_gt_cases (length (before m)) (length pre')) as [| Hlt];
      [assumption | exfalso].
    specialize (Hnone _ Hlt). rewrite E' in Hnone.
    rewrite drop_app_length in Hnone.
    now rewrite (timeRegex_tag g1' g2' post' T1' T2') in Hnone.
Qed.

Lemma exec_no_tag line :
  RegExp.exec timeRegex line = None <->
  ~ exists pre g1 g2 post, tag_at line pre g1 g2 post.
Proof.
  split.
  - intros H (pre & g1 & g2 & post & -> & T1 & T2).
    pose proof (exec_None _ _ H (length pre)) as Hn.
    rewrite drop_app_length in Hn.
    now rewrite (timeRegex_tag g1 g2 post T1 T2) in Hn.
  - intros H. destruct (RegExp.exec timeRegex line) as [m |] eqn:E;
      [| reflexivity].
    exfalso. apply H. apply exec_first_tag in E as (g1 & g2 & _ & [T _]).
    eauto.
Qed.

(** ** The numbers of a tag *)

(** Runs a parser on a string whose digits are variables. *)
Ltac run :=
  repeat (progress (cbn -[digits_val Num.of_decimal Num.of_Z Z.of_nat Z.sub];
                    digits)).

Lemma of_decimal_int z : (0 <= z)%Z -> Num.of_decimal false z 0 = Num.of_Z z.
Proof.
  intros Hz. destruct z as [| p | p]; [reflexivity | | lia].
  cbn. now rewrite Pos.mul_1_r.
Qed.

Lemma digit_val_range c : is_digit c = true -> (0 <= digit_val c <= 9)%Z.
Proof. rewrite is_digit_range. unfold digit_val. lia. Qed.

Lemma digits_val_two a b :
  is_digit a = true -> is_digit b = true ->
  digits_val [a; b] = (10 * digit_val a + digit_val b)%Z /\
  (0 <= digits_val [a; b] < 100)%Z.
Proof.
  intros Ha%digit_val_range Hb%digit_val_range. unfold digits_val. cbn. lia.
Qed.

Lemma parseInt10_two_digits g1 :
  two_digits g1 = true -> parseInt10 g1 = minutes_value g1.
Proof.
  destruct g1 as [| a [| b [| ? ?]]]; try discriminate.
  cbn [two_digits]. intros H. digits.
  unfold parseInt10, minutes_value. run.
  apply of_decimal_int. now apply digits_val_two.
Qed.

Lemma strip_Infinity_digit c s :
  is_digit c = true -> Str.strip_prefix (lit "Infinity") (c :: s) = None.
Proof.
  rewrite is_digit_range. intros H.
  change (lit "Infinity") with [73; 110; 102; 105; 110; 105; 116; 121]%N.
  cbn [Str.strip_prefix].
  now replace (N.eqb 73 c) with false by (symmetry; apply N.eqb_neq; lia).
Qed.

Lemma parseFloat_seconds g2 :
  seconds_field g2 = true -> parseFloat g2 = seconds_value g2.
Proof.
  destruct g2 as [| a [| b [| p [| c [| d [| e [| ? ?]]]]]]]; try discriminate;
    cbn [seconds_field]; intros H; digits;
    unfold parseFloat, scan_decimal_literal, seconds_value;
    cbn [Str.trimStart]; digits; cbn [read_sign]; digits;
    rewrite strip_Infinity_digit by assumption; run; reflexivity.
Qed.

Lemma minutes_times_60_table :
  forallb (fun k => bool_decide
             (Num.mul (Num.of_Z (Z.of_nat k)) (Num.of_Z 60)
              = Num.of_Z (60 * Z.of_nat k)))
          (seq 0 100) = true.
Proof. vm_compute. reflexivity. Qed.

Lemma minutes_times_60 g1 :
  two_digits g1 = true ->
  Num.mul (minutes_value g1) (Num.of_Z 60) = Num.of_Z (60 * digits_val g1).
Proof.
  destruct g1 as [| a [| b [| ? ?]]]; try discriminate.
  cbn [two_digits]. intros H. digits.
  destruct (digits_val_two a b) as [_ Hr]; [assumption .. |].
  unfold minutes_value.
  pose proof minutes_times_60_table as T.
  rewrite forallb_forall in T.
  specialize (T (Z.to_nat (digits_val [a; b]))).
  rewrite Z2Nat.id in T by lia.
  apply bool_decide_eq_true in T; [assumption |].
  apply in_seq. lia.
Qed.

Lemma wf_nonneg_tag_time g1 g2 :
  two_digits g1 = true -> seconds_field g2 = true ->
  Num.wf_nonneg (tag_time g1 g2) = true.
Proof.
  intros H H2. unfold tag_time. rewrite minutes_times_60 by assumption.
  apply wf_nonneg_add.
  - apply wf_nonneg_of_Z.
    destruct g1 as [| a [| b [| ? ?]]]; try discriminate.
    cbn [two_digits] in H. digits.
    destruct (digits_val_two a b) as [_ ?]; [assumption .. | lia].
  - destruct g2 as [| a [| b [| p [| c [| d [| e [| ? ?]]]]]]];
      try discriminate; apply wf_nonneg_of_decimal.
Qed.

(** ** One line *)

(** What is left of a line for display once the tag is cut out. *)
Lemma parse_line_first_tag line pre g1 g2 post :
  first_tag line pre g1 g2 post ->
  parse_line line
  = let display := Str.trim (pre ++ post) in
    match RegExp.exec styleRegex display with
    | Some sm =>
        Some {| lineTime := tag_time g1 g2;
                text := Str.trim (before sm ++ after sm);
                style := Some (parse_style (RegExp.group sm 1)) |}
    | None =>
        Some {| lineTime := tag_time g1 g2; text := display; style := None |}
    end.
Proof.
  intros H. pose proof H as [(_ & T1 & T2) _].
  apply first_tag_exec in H.
  unfold parse_line, RegExp.String_match, RegExp.String_replace_empty.
  rewrite H. cbn [before after captures RegExp.group nth pred].
  rewrite parseInt10_two_digits, parseFloat_seconds by assumption.
  fold (tag_time g1 g2).
  destruct (RegExp.exec styleRegex (Str.trim (pre ++ post))); reflexivity.
Qed.

Lemma parse_line_None line :
  parse_line line = None <-> ~ exists pre g1 g2 post, tag_at line pre g1 g2 post.
Proof.
  rewrite <- exec_no_tag. unfold parse_line, RegExp.String_match.
  destruct (RegExp.exec timeRegex line); [| tauto].
  split; [| discriminate].
  destruct (RegExp.exec styleRegex _); discriminate.
Qed.

Lemma parse_line_Some line l :
  parse_line line = Some l ->
  exists pre g1 g2 post,
    first_tag line pre g1 g2 post /\ lineTime l = tag_time g1 g2.
Proof.
  intros H.
  destruct (RegExp.exec timeRegex line) as [m |] eqn:E.
  - apply exec_first_tag in E as (g1 & g2 & _ & F).
    exists (before m), g1, g2, (after m). split; [assumption |].
    rewrite (parse_line_first_tag _ _ _ _ _ F) in H. cbv zeta in H.
    destruct (RegExp.exec styleRegex _); injection H as <-; reflexivity.
  - unfold parse_line, RegExp.String_match in H. now rewrite E in H.
Qed.

Lemma parse_line_wf line l :
  parse_line line = Some l -> Num.wf_nonneg (lineTime l) = true.
Proof.
  intros (pre & g1 & g2 & post & [(_ & T1 & T2) _] & ->)%parse_line_Some.
  now apply wf_nonneg_tag_time.
Qed.

(** ** The whole input *)

Lemma parse_lines_omap lines : forall result,
  parse_lines lines result = result ++ omap parse_line lines.
Proof.
  induction lines as [| line lines IH]; intros result; cbn.
  - now rewrite app_nil_r.
  - rewrite IH. destruct (parse_line line); [| reflexivity].
    now rewrite <- app_assoc.
Qed.

Lemma parseLrc_Permutation s :
  parseLrc s ≡ₚ omap parse_line (Str.split LF s).
Proof.
  unfold parseLrc. rewrite Array_sort_Permutation, parse_lines_omap.
  reflexivity.
Qed.

Lemma parseLrc_Sorted s : Sorted time_le (parseLrc s).
Proof.
  unfold parseLrc.
  apply (Array_sort_Sorted _ lineTime); [reflexivity |].
  rewrite parse_lines_omap. cbn [app].
  apply Forall_forall. intros l Hl.
  apply list_elem_of_omap in Hl as (line & _ & Hl).
  eapply parse_line_wf, Hl.
Qed.

(** ** The lookup *)

Lemma getCurrentLine_from_spec lines t n :
  n <= length lines ->
  match getCurrentLine_from lines t n with
  | Some l =>
      exists i, i < n /\ lines !! i = Some l /\ Num.le (lineTime l) t = true /\
                forall j l', i < j < n -> lines !! j = Some l' ->
                             Num.le (lineTime l') t = false
  | None =>
      forall j l', j < n -> lines !! j = Some l' ->
                   Num.le (lineTime l') t = false
  end.
Proof.
  induction n as [| n IH]; intros Hn; cbn [getCurrentLine_from].
  - intros j l' Hj. lia.
  - destruct (lookup_lt_is_Some_2 lines n ltac:(lia)) as [l Hl]. rewrite Hl.
    change (Num.ge t (lineTime l)) with (Num.le (lineTime l) t).
    destruct (Num.le (lineTime l) t) eqn:E.
    + exists n. repeat split; [lia | assumption | assumption |].
      intros j l' Hj. lia.
    + specialize (IH ltac:(lia)).
      destruct (getCurrentLine_from lines t n) as [l0 |].
      * destruct IH as (i & Hi & Hl0 & Hle & Hlast).
        exists i. repeat split; [lia | assumption | assumption |].
        intros j l' Hj Hl'. destruct (decide (j = n)) as [-> | Hne].
        -- congruence.
        -- apply (Hlast j); [lia | assumption].
      * intros j l' Hj Hl'. destruct (decide (j = n)) as [-> | Hne].
        -- congruence.
        -- apply (IH j); [lia | assumption].
Qed.

Lemma time_le_trans : Transitive time_le.
Proof. intros a b c. unfold time_le. apply num_le_trans. Qed.

Lemma Sorted_time_le_lookup lines i j a b :
  Sorted time_le lines -> i < j ->
  lines !! i = Some a -> lines !! j = Some b -> time_le a b.
Proof.
  intros Hs%(Sorted_StronglySorted time_le_trans).
  revert i j. induction Hs as [| x l Hs IH Hx]; intros i j Hij Hi Hj.
  - discriminate.
  - destruct j as [| j]; [lia |]. cbn in Hj. destruct i as [| i].
    + injection Hi as <-. rewrite List.Forall_forall in Hx. apply Hx.
      apply list_elem_of_In. eapply list_elem_of_lookup_2, Hj.
    + cbn in Hi. apply (IH i j); [lia | assumption ..].
Qed.

(** ** [trim] *)

Lemma trimStart_split s :
  exists ws, s = ws ++ Str.trimStart s /\ Forall (fun c => is_space c = true) ws.
Proof.
  induction s as [| c s (ws & E & F)]; cbn.
  - exists []. split; [reflexivity | constructor].
  - destruct (is_space c) eqn:Hc.
    + exists (c :: ws). split; [cbn; now f_equal | now constructor].
    + exists []. split; [reflexivity | constructor].
Qed.

Lemma trimStart_head s :
  match Str.trimStart s with
  | [] => True
  | c :: _ => is_space c = false
  end.
Proof.
  induction s as [| c s IH]; cbn; [exact I |].
  destruct (is_space c) eqn:Hc; [exact IH | exact Hc].
Qed.

Lemma trimStart_id s :
  match s with [] => True | c :: _ => is_space c = false end ->
  Str.trimStart s = s.
Proof. destruct s as [| c s]; cbn; [reflexivity | now intros ->]. Qed.

Lemma trimStart_idem s : Str.trimStart (Str.trimStart s) = Str.trimStart s.
Proof. apply trimStart_id, trimStart_head. Qed.

Lemma trimEnd_split s :
  exists ws, s = Str.trimEnd s ++ ws /\ Forall (fun c => is_space c = true) ws.
Proof.
  unfold Str.trimEnd. destruct (trimStart_split (rev s)) as (ws & E & F).
  exists (rev ws). split.
  - rewrite <- rev_app_distr, <- E. now rewrite rev_involutive.
  - now apply Forall_rev.
Qed.

Lemma trimStart_app_nonspace s c t :
  is_space c = false ->
  Str.trimStart (s ++ c :: t) = Str.trimStart s ++ c :: t.
Proof.
  intros Hc. induction s as [| x s IH]; cbn.
  - now rewrite Hc.
  - destruct (is_space x); [exact IH | reflexivity].
Qed.

(** Trimming the end leaves the start alone. *)
Lemma trimEnd_head s :
  match s with [] => True | c :: _ => is_space c = false end ->
  match Str.trimEnd s with [] => True | c :: _ => is_space c = false end.
Proof.
  destruct s as [| c s]; [intros _; exact I |]. intros Hc.
  unfold Str.trimEnd. cbn [rev].
  rewrite trimStart_app_nonspace by assumption.
  rewrite rev_app_distr. cbn. exact Hc.
Qed.

Lemma trim_head s :
  match Str.trim s with [] => True | c :: _ => is_space c = false end.
Proof. apply trimEnd_head, trimStart_head. Qed.

Lemma trimStart_trim s : Str.trimStart (Str.trim s) = Str.trim s.
Proof. apply trimStart_id, trim_head. Qed.

Lemma trimEnd_idem s : Str.trimEnd (Str.trimEnd s) = Str.trimEnd s.
Proof.
  unfold Str.trimEnd. now rewrite rev_involutive, trimStart_idem.
Qed.


Lemma trim_split s :
  exists w1 w2, s = w1 ++ Str.trim s ++ w2 /\
                Forall (fun c => is_space c = true) w1 /\
                Forall (fun c => is_space c = true) w2.
Proof.
  destruct (trimStart_split s) as (w1 & E1 & F1).
  destruct (trimEnd_split (Str.trimStart s)) as (w2 & E2 & F2).
  exists w1, w2. unfold Str.trim. now rewrite <- E2.
Qed.


(** ** [split] *)

Lemma split_nonempty sep s : Str.split sep s <> [].
Proof.
  destruct s as [| c s]; cbn; [discriminate |].
  destruct (N.eqb c sep); [discriminate |].
  destruct (Str.split sep s); discriminate.
Qed.

Lemma split_app_sep sep a b :
  Str.split sep (a ++ sep :: b) = Str.split sep a ++ Str.split sep b.
Proof.
  induction a as [| c a IH]; cbn.
  - now rewrite N.eqb_refl.
  - destruct (N.eqb c sep); [now rewrite IH |].
    rewrite IH. pose proof (split_nonempty sep a).
    destruct (Str.split sep a); [congruence | reflexivity].
Qed.

Lemma split_no_sep sep s :
  Forall (fun c => c <> sep) s -> Str.split sep s = [s].
Proof.
  induction 1 as [| c s Hc _ IH]; cbn; [reflexivity |].
  apply N.eqb_neq in Hc. now rewrite Hc, IH.
Qed.

(** ** The style annotation *)

Lemma lazy_until_brace_inv s : forall cap rest,
  lazy_until_brace s = Some (cap, rest) ->
  s = cap ++ code "}" :: rest /\
  Forall (fun x => is_char "}" x = false /\ is_line_terminator x = false) cap.
Proof.
  induction s as [| c s IH]; intros cap rest; cbn; [discriminate |].
  destruct (is_char "}" c) eqn:Hb.
  - intros [= <- <-]. apply is_char_eq in Hb as ->. split; [reflexivity | constructor].
  - destruct (is_line_terminator c) eqn:Ht; [discriminate |].
    destruct (lazy_until_brace s) as [[cap' rest'] |]; [| discriminate].
    intros [= <- <-]. destruct (IH _ _ eq_refl) as [-> F].
    split; [reflexivity | now constructor].
Qed.

Lemma lazy_until_brace_first cap rest :
  Forall (fun x => is_char "}" x = false /\ is_line_terminator x = false) cap ->
  lazy_until_brace (cap ++ code "}" :: rest) = Some (cap, rest).
Proof.
  induction 1 as [| c cap [Hb Ht] _ IH].
  - reflexivity.
  - cbn [app lazy_until_brace]. now rewrite Hb, Ht, IH.
Qed.

(** Without line terminators before it a closing brace is reached, though
    maybe an earlier one. *)
Lemma lazy_until_brace_some c rest :
  Forall (fun x => is_line_terminator x = false) c ->
  is_Some (lazy_until_brace (c ++ code "}" :: rest)).
Proof.
  induction 1 as [| x c Ht _ IH].
  - cbn. eauto.
  - cbn [app lazy_until_brace].
    destruct (is_char "}" x); [eauto |]. rewrite Ht.
    destruct IH as [[cap r] ->]. eauto.
Qed.

Lemma styleRegex_inv s caps rest :
  styleRegex s = Some (caps, rest) ->
  exists cap, caps = [cap] /\ s = code "{" :: cap ++ code "}" :: rest /\
    Forall (fun x => is_char "}" x = false /\ is_line_terminator x = false) cap.
Proof.
  destruct s as [| c s]; cbn; [discriminate |].
  destruct (is_char "{" c) eqn:Ho; [| discriminate].
  destruct (lazy_until_brace s) as [[cap r] |] eqn:E; [| discriminate].
  intros [= <- <-]. apply is_char_eq in Ho as ->.
  apply lazy_until_brace_inv in E as [-> F]. eauto.
Qed.

Lemma styleRegex_at cap rest :
  Forall (fun x => is_char "}" x = false /\ is_line_terminator x = false) cap ->
  styleRegex (code "{" :: cap ++ code "}" :: rest) = Some ([cap], rest).
Proof.
  intros F. cbn [styleRegex].
  replace (is_char "{" (code "{")) with true by reflexivity.
  now rewrite lazy_until_brace_first.
Qed.

(** The first annotation when no opening brace comes before it. *)
Lemma exec_styleRegex_first a c b :
  Forall (fun x => is_char "{" x = false) a ->
  Forall (fun x => is_char "}" x = false /\ is_line_terminator x = false) c ->
  RegExp.exec styleRegex (a ++ code "{" :: c ++ code "}" :: b)
  = Some {| before := a; captures := [c]; after := b |}.
Proof.
  intros Fa Fc. rewrite exec_skip.
  - rewrite (exec_here _ _ _ _ (styleRegex_at c b Fc)). cbn.
    now rewrite app_nil_r.
  - intros i Hi. rewrite drop_app_le by lia.
    destruct (drop i a) as [| x r] eqn:E.
    { apply (f_equal length) in E. rewrite length_drop in E. cbn in E. lia. }
    assert (Hx : x ∈ a).
    { rewrite <- (take_drop i a), E. apply elem_of_app. right. left. }
    rewrite List.Forall_forall in Fa.
    apply list_elem_of_In, Fa in Hx. cbn. now rewrite Hx.
Qed.

(** The scan for an annotation agrees with the search of [styleRegex]. *)
Lemma brace_scan_exec s :
  (brace_scan true s
   = bool_decide (is_Some (lazy_until_brace s))
     || bool_decide (is_Some (RegExp.exec styleRegex s))) /\
  brace_scan false s = bool_decide (is_Some (RegExp.exec styleRegex s)).
Proof.
  induction s as [| c s [IHt IHf]].
  - split; reflexivity.
  - cbn [brace_scan lazy_until_brace RegExp.exec styleRegex].
    rewrite andb_true_r, andb_false_r.
    destruct (is_char "}" c) eqn:Hb.
    + apply is_char_eq in Hb as ->. cbn. rewrite IHf. split; [reflexivity |].
      destruct (RegExp.exec styleRegex s); reflexivity.
    + destruct (is_char "{" c) eqn:Ho.
      * apply is_char_eq in Ho as ->. cbn. rewrite IHt.
        destruct (lazy_until_brace s) as [[cap r] |]; cbn; [split; reflexivity |].
        destruct (RegExp.exec styleRegex s); split; reflexivity.
      * destruct (is_line_terminator c) eqn:Ht.
        -- rewrite IHf. destruct (RegExp.exec styleRegex s); split; reflexivity.
        -- rewrite IHt, IHf.
           destruct (lazy_until_brace s) as [[cap r] |]; cbn;
             destruct (RegExp.exec styleRegex s); split; reflexivity.
Qed.


Lemma brace_scan_reach o a x :
  (forall o', brace_scan o' x = true) -> brace_scan o (a ++ x) = true.
Proof.
  intros H. revert o. induction a as [| c a IH]; intros o; cbn; [apply H |].
  destruct (is_char "}" c && o); [reflexivity |].
  destruct (is_char "{" c); [apply IH |].
  destruct (is_line_terminator c); apply IH.
Qed.

Lemma has_annotation_exec s :
  has_annotation s <-> is_Some (RegExp.exec styleRegex s).
Proof.
  split.
  - intros (a & c & b & -> & F).
    destruct (brace_scan_exec (a ++ code "{" :: c ++ code "}" :: b)) as [_ E].
    rewrite brace_scan_reach in E.
    + symmetry in E. now apply bool_decide_eq_true in E.
    + intros o'. cbn [brace_scan]. replace (is_char "}" (code "{")) with false by reflexivity.
      replace (is_char "{" (code "{")) with true by reflexivity. cbn [andb].
      destruct (brace_scan_exec (c ++ code "}" :: b)) as [-> _].
      rewrite bool_decide_eq_true_2; [reflexivity |].
      now apply lazy_until_brace_some.
  - intros [m Hm]. apply exec_Some in Hm as (E & Hm & _).
    apply styleRegex_inv in Hm as (cap & _ & Hd & F).
    exists (before m), cap, (after m). split.
    + now rewrite <- Hd.
    + eapply Forall_impl; [exact F |]. now intros x [_ H].
Qed.

Lemma has_annotation_scan s : has_annotation s <-> brace_scan false s = true.
Proof.
  rewrite has_annotation_exec. destruct (brace_scan_exec s) as [_ ->].
  now rewrite bool_decide_eq_true.
Qed.

(** Plain code units put in or taken out do not change the outcome, nor
    does white space at the ends. *)
Lemma brace_scan_plain t s : forall o,
  Forall (fun c => plain c = true) t ->
  brace_scan o (t ++ s) = brace_scan o s.
Proof.
  intros o F. induction F as [| c t Hc _ IH]; cbn; [reflexivity |].
  unfold plain in Hc. apply negb_true_iff in Hc.
  apply orb_false_iff in Hc as [[Ho Hb]%orb_false_iff Ht].
  now rewrite Hb, Ho, Ht.
Qed.

Lemma brace_scan_insert pre t post : forall o,
  Forall (fun c => plain c = true) t ->
  brace_scan o (pre ++ t ++ post) = brace_scan o (pre ++ post).
Proof.
  intros o F. revert o. induction pre as [| c pre IH]; intros o; cbn.
  - now apply brace_scan_plain.
  - now rewrite !IH.
Qed.

Lemma space_not_brace c :
  is_space c = true -> is_char "{" c = false /\ is_char "}" c = false.
Proof.
  intros H. split.
  - destruct (is_char "{" c) eqn:E; [| reflexivity].
    apply is_char_eq in E as ->. discriminate.
  - destruct (is_char "}" c) eqn:E; [| reflexivity].
    apply is_char_eq in E as ->. discriminate.
Qed.

Lemma brace_scan_space_l ws s :
  Forall (fun c => is_space c = true) ws ->
  brace_scan false (ws ++ s) = brace_scan false s.
Proof.
  induction 1 as [| c ws Hc _ IH]; cbn; [reflexivity |].
  destruct (space_not_brace c Hc) as [-> ->]. cbn.
  destruct (is_line_terminator c); exact IH.
Qed.

Lemma brace_scan_space_r s ws : forall o,
  Forall (fun c => is_space c = true) ws ->
  brace_scan o (s ++ ws) = brace_scan o s.
Proof.
  intros o F. revert o. induction s as [| c s IH]; intros o; cbn.
  - revert o. induction F as [| x ws Hx _ IHw]; intros o; cbn; [reflexivity |].
    destruct (space_not_brace x Hx) as [-> ->]. cbn.
    destruct (is_line_terminator x); apply IHw.
  - now rewrite !IH.
Qed.

Lemma brace_scan_trim s : brace_scan false (Str.trim s) = brace_scan false s.
Proof.
  destruct (trim_split s) as (w1 & w2 & E & F1 & F2).
  rewrite E at 2. rewrite brace_scan_space_l by assumption.
  now rewrite brace_scan_space_r.
Qed.

Lemma digit_plain c : is_digit c = true -> plain c = true.
Proof.
  rewrite is_digit_range. intros H. unfold plain, is_char, is_line_terminator.
  cbv [code N_of_ascii N.add N.mul N_of_digits].
  repeat match goal with
    | |- context [N.eqb c ?k] =>
        replace (N.eqb c k) with false by (symmetry; apply N.eqb_neq; lia)
    end.
  reflexivity.
Qed.

Lemma tag_plain g1 g2 :
  two_digits g1 = true -> seconds_field g2 = true ->
  Forall (fun c => plain c = true) (tag g1 g2).
Proof.
  destruct g1 as [| a [| b [| ? ?]]]; try discriminate.
  destruct g2 as [| c [| d [| p [| e [| f [| g [| ? ?]]]]]]]; try discriminate;
    cbn [two_digits seconds_field]; intros H1 H2; digits; cbn [tag app];
    repeat (constructor; [first [reflexivity | now apply digit_plain] |]);
    constructor.
Qed.

(** The annotation of a line is the annotation of what is left of it for
    display. *)
Lemma has_annotation_display pre g1 g2 post :
  two_digits g1 = true -> seconds_field g2 = true ->
  has_annotation (Str.trim (pre ++ post))
  <-> has_annotation (pre ++ tag g1 g2 ++ post).
Proof.
  intros H1 H2. rewrite !has_annotation_scan, brace_scan_trim.
  now rewrite (brace_scan_insert pre (tag g1 g2) post) by now apply tag_plain.
Qed.

(** ** Style pairs *)

Lemma of_decimal_not_nan neg m e : Num.isNaN (Num.of_decimal neg m e) = false.
Proof.
  unfold Num.of_decimal. destruct m as [| p | p]; try reflexivity.
  destruct (0 <=? e)%Z.
  - pose proof (binary_round_wf neg (p * Z.to_pos (10 ^ e)) 0) as H.
    destruct (binary_round _ _ _ _ _); [reflexivity .. | contradiction | reflexivity].
  - cbn [SFdiv].
    pose proof (SFdiv_core_binary_wf (Z.pos p) 0 (Z.pos (Z.to_pos (10 ^ (- e)))) 0
                  ltac:(lia) ltac:(lia)) as H.
    destruct (SFdiv_core_binary _ _ _ _ _ _) as [[q e'] l]. destruct H as [Hq He].
    pose proof (binary_round_aux_wf (xorb neg false) q e' l Hq He) as H.
    destruct (binary_round_aux _ _ _ _ _ _);
      [reflexivity .. | contradiction | reflexivity].
Qed.

Lemma scan_not_nan s v r :
  scan_decimal_literal s = Some (v, r) -> Num.isNaN v = false.
Proof.
  unfold scan_decimal_literal.
  destruct (read_sign s) as [neg s1].
  destruct (Str.strip_prefix _ s1); [now intros [= <- _] |].
  destruct (Str.span is_digit s1) as [ip r1].
  destruct (match r1 with [] => _ | _ :: _ => _ end) as [fp r2].
  destruct (read_exponent r2) as [ex r3].
  destruct ip, fp; try discriminate; intros [= <- _]; apply of_decimal_not_nan.
Qed.

Lemma parseFloat_trimmed v :
  (if Num.isNaN (parseFloat (Str.trim v)) then StyleString (Str.trim v)
   else StyleNumber (parseFloat (Str.trim v)))
  = stored_value (Str.trim v).
Proof.
  unfold parseFloat, stored_value. rewrite trimStart_trim.
  destruct (scan_decimal_literal (Str.trim v)) as [[x r] |] eqn:E; [| reflexivity].
  now rewrite (scan_not_nan _ _ _ E).
Qed.

Lemma no_colon_ne k :
  Forall (fun c => is_char ":" c = false) k -> Forall (fun c => c <> code ":") k.
Proof.
  intros F. eapply Forall_impl; [exact F |]. intros c H ->. discriminate.
Qed.

Lemma split_colon_two k v :
  Forall (fun c => is_char ":" c = false) k ->
  Forall (fun c => is_char ":" c = false) v ->
  Str.split (code ":") (k ++ code ":" :: v) = [k; v].
Proof.
  intros Hk%no_colon_ne Hv%no_colon_ne.
  now rewrite split_app_sep, !split_no_sep.
Qed.

Lemma split_colon_more k v more :
  Forall (fun c => is_char ":" c = false) k ->
  Forall (fun c => is_char ":" c = false) v ->
  Str.split (code ":") (k ++ code ":" :: v ++ code ":" :: more)
  = k :: v :: Str.split (code ":") more.
Proof.
  intros Hk%no_colon_ne Hv%no_colon_ne.
  rewrite split_app_sep, (split_no_sep _ k) by assumption.
  now rewrite split_app_sep, (split_no_sep _ v) by assumption.
Qed.

Lemma truthy_spec s : truthy s = true <-> s <> [].
Proof. destruct s; cbn; split; congruence. Qed.

Lemma parse_pair_two style k v :
  Forall (fun c => is_char ":" c = false) k ->
  Forall (fun c => is_char ":" c = false) v ->
  parse_pair style (k ++ code ":" :: v)
  = if truthy (Str.trim k) && truthy (Str.trim v)
    then Object_set style (Str.trim k) (stored_value (Str.trim v))
    else style.
Proof.
  intros Hk Hv. unfold parse_pair. rewrite split_colon_two by assumption.
  cbn [map]. now rewrite parseFloat_trimmed.
Qed.

Lemma parse_pair_cut style k v more :
  Forall (fun c => is_char ":" c = false) k ->
  Forall (fun c => is_char ":" c = false) v ->
  parse_pair style (k ++ code ":" :: v ++ code ":" :: more)
  = parse_pair style (k ++ code ":" :: v).
Proof.
  intros Hk Hv. unfold parse_pair.
  now rewrite split_colon_more, split_colon_two by assumption.
Qed.

Lemma parse_pair_no_colon style seg :
  Forall (fun c => is_char ":" c = false) seg -> parse_pair style seg = style.
Proof.
  intros H%no_colon_ne. unfold parse_pair. now rewrite split_no_sep.
Qed.

Lemma Object_set_lookup style key v :
  key <> lit "__proto__" -> Object_set style key v !! key = Some v.
Proof.
  intros H. unfold Object_set. rewrite decide_False by assumption.
  apply lookup_insert_eq.
Qed.

Lemma Object_set_lookup_ne style key v k :
  k <> key -> Object_set style key v !! k = style !! k.
Proof.
  intros H. unfold Object_set. destruct (decide _); [reflexivity |].
  now apply lookup_insert_ne.
Qed.

Lemma parse_style_snoc content seg :
  Forall (fun c => c <> code ",") seg ->
  parse_style (content ++ code "," :: seg)
  = parse_pair (parse_style content) seg.
Proof.
  intros H. unfold parse_style.
  now rewrite split_app_sep, fold_left_app, split_no_sep.
Qed.

Lemma scan_None_iff val :
  scan_decimal_literal val = None <-> starts_numeric val = false.
Proof.
  unfold scan_decimal_literal, starts_numeric.
  destruct (read_sign val) as [neg s1].
  destruct (Str.strip_prefix (lit "Infinity") s1); [easy |].
  destruct s1 as [| c r]; [easy |]. cbn [Str.span].
  destruct (is_digit c) eqn:Hc.
  - destruct (Str.span is_digit r) as [a b]. cbn [orb].
    destruct (match b with [] => _ | _ :: _ => _ end) as [fp r2].
    destruct (read_exponent r2). easy.
  - cbn [orb]. destruct (is_char "." c) eqn:Hd; cbn [andb]; [| easy].
    destruct r as [| d r']; [easy |]. cbn [Str.span].
    destruct (is_digit d).
    + destruct (Str.span is_digit r') as [a b].
      destruct (read_exponent b). easy.
    + easy.
Qed.

Lemma stored_value_number val :
  starts_numeric val = true ->
  exists v r, scan_decimal_literal val = Some (v, r) /\
              stored_value val = StyleNumber v /\ Num.isNaN v = false.
Proof.
  intros H. unfold stored_value.
  destruct (scan_decimal_literal val) as [[v r] |] eqn:E.
  - exists v, r. repeat split. eapply scan_not_nan, E.
  - apply scan_None_iff in E. congruence.
Qed.

Lemma stored_value_string val :
  starts_numeric val = false -> stored_value val = StyleString val.
Proof.
  intros H%scan_None_iff. unfold stored_value. now rewrite H.
Qed.

Lemma malformed_pair_discarded style seg :
  malformed_pair seg -> parse_pair style seg = style.
Proof.
  intros [seg' H | k rest Hk Ht | k v Hk Hv Ht | k v more Hk Hv Ht].
  - now apply parse_pair_no_colon.
  - unfold parse_pair.
    rewrite split_app_sep, (split_no_sep _ k) by now apply no_colon_ne.
    pose proof (split_nonempty (code ":") rest).
    destruct (Str.split (code ":") rest) as [| p ps]; [congruence |].
    cbn [app map]. now rewrite Ht.
  - rewrite parse_pair_two by assumption. rewrite Ht. cbn.
    now rewrite andb_false_r.
  - rewrite parse_pair_cut, parse_pair_two by assumption. rewrite Ht. cbn.
    now rewrite andb_false_r.
Qed.

Lemma parse_style_all_malformed c :
  Forall malformed_pair (Str.split (code ",") c) -> parse_style c = ∅.
Proof.
  unfold parse_style. intros H. generalize (∅ : StyleObject).
  induction H as [| seg segs H _ IH]; intros style; cbn; [reflexivity |].
  now rewrite malformed_pair_discarded.
Qed.

(** ** A line and its record *)

Lemma parse_line_plain line pre g1 g2 post :
  first_tag line pre g1 g2 post -> ~ has_annotation line ->
  parse_line line
  = Some {| lineTime := tag_time g1 g2; text := Str.trim (pre ++ post);
            style := None |}.
Proof.
  intros F Hn. rewrite (parse_line_first_tag _ _ _ _ _ F). cbv zeta.
  destruct F as [(-> & T1 & T2) _].
  destruct (RegExp.exec styleRegex (Str.trim (pre ++ post))) as [sm |] eqn:E;
    [| reflexivity].
  exfalso. apply Hn. apply (has_annotation_display pre g1 g2 post T1 T2).
  apply has_annotation_exec. eauto.
Qed.

Lemma parse_line_annotated line pre g1 g2 post a c b :
  first_tag line pre g1 g2 post ->
  Str.trim (pre ++ post) = a ++ code "{" :: c ++ code "}" :: b ->
  Forall (fun x => is_char "{" x = false) a ->
  Forall (fun x => is_char "}" x = false /\ is_line_terminator x = false) c ->
  parse_line line
  = Some {| lineTime := tag_time g1 g2; text := Str.trim (a ++ b);
            style := Some (parse_style c) |}.
Proof.
  intros F E Fa Fc. rewrite (parse_line_first_tag _ _ _ _ _ F). cbv zeta.
  now rewrite E, exec_styleRegex_first.
Qed.

Lemma parse_line_style_None line l :
  parse_line line = Some l -> (style l = None <-> ~ has_annotation line).
Proof.
  intros H.
  destruct (parse_line_Some _ _ H) as (pre & g1 & g2 & post & F & _).
  rewrite (parse_line_first_tag _ _ _ _ _ F) in H. cbv zeta in H.
  destruct F as [(-> & T1 & T2) _].
  rewrite <- (has_annotation_display pre g1 g2 post T1 T2), has_annotation_exec.
  destruct (RegExp.exec styleRegex (Str.trim (pre ++ post))) as [sm |];
    injection H as <-; cbn.
  - split; [discriminate |]. intros Hn. exfalso. apply Hn. eauto.
  - split; [| reflexivity]. intros _ [x Hx]. discriminate.
Qed.

Lemma elem_of_parseLrc content l :
  l ∈ parseLrc content <->
  exists line, line ∈ Str.split LF content /\ parse_line line = Some l.
Proof. now rewrite parseLrc_Permutation, list_elem_of_omap. Qed.

Lemma parseLrc_skip a line b :
  Forall (fun c => c <> LF) line -> parse_line line = None ->
  parseLrc (a ++ LF :: line ++ LF :: b) = parseLrc (a ++ LF :: b).
Proof.
  intros Hl Hn. unfold parseLrc.
  rewrite !split_app_sep, (split_no_sep _ line) by assumption.
  rewrite !parse_lines_omap, !omap_app. cbn [omap list_omap app].
  now rewrite Hn.
Qed.

Lemma trimEnd_app_cons s c y :
  is_space c = false -> Str.trimEnd (s ++ c :: y) = s ++ c :: Str.trimEnd y.
Proof.
  intros Hc. unfold Str.trimEnd.
  rewrite rev_app_distr. cbn [rev]. rewrite <- app_assoc. cbn [app].
  rewrite trimStart_app_nonspace by assumption.
  rewrite rev_app_distr. cbn [rev]. rewrite rev_involutive, <- app_assoc.
  reflexivity.
Qed.

(** A tag inside a string survives [trim]. *)
Lemma trim_keeps_tag x g1 g2 y :
  exists x' y', Str.trim (x ++ tag g1 g2 ++ y) = x' ++ tag g1 g2 ++ y'.
Proof.
  unfold Str.trim, tag. cbn [app].
  rewrite trimStart_app_nonspace by reflexivity.
  exists (Str.trimStart x), (Str.trimEnd y).
  replace (Str.trimStart x ++ code "[" :: (g1 ++ code ":" :: g2 ++ [code "]"]) ++ y)
    with ((Str.trimStart x ++ code "[" :: g1 ++ code ":" :: g2) ++ code "]" :: y)
    by (rewrite <- !app_assoc; cbn; now rewrite <- !app_assoc).
  rewrite trimEnd_app_cons by reflexivity.
  rewrite <- !app_assoc. cbn. now rewrite <- !app_assoc.
Qed.

Lemma exec_first_tag_iff line pre g1 g2 post :
  first_tag line pre g1 g2 post <->
  RegExp.exec timeRegex line
  = Some {| before := pre; captures := [g1; g2]; after := post |}.
Proof.
  split; [apply first_tag_exec |].
  intros H. apply exec_first_tag in H as (g1' & g2' & E & F).
  cbn in E, F. now injection E as <- <-.
Qed.

(** * The properties *)

(** C1.  On a sequence sorted ascending by time, [getCurrentLine] returns
    the last line of the sequence whose time is at most the query: no line
    further right has started, and no started line has a greater time.  It
    returns nothing exactly when no line has started, the empty sequence
    included.  On lines at 5, 10 and 15: the query 7 gives the line at 5,
    15 the line at 15, 3 nothing and 15.001 the line at 15. *)
Theorem getCurrentLine_last_started :
  (forall lines t,
     Sorted time_le lines ->
     match getCurrentLine lines t with
     | Some l =>
         exists i,
           lines !! i = Some l /\ Num.le (lineTime l) t = true /\
           (forall j l', i < j -> lines !! j = Some l' ->
                         Num.le (lineTime l') t = false) /\
           (forall l', l' ∈ lines -> Num.le (lineTime l') t = true ->
                       time_le l' l)
     | None => forall l', l' ∈ lines -> Num.le (lineTime l') t = false
     end) /\
  (forall l5 l10 l15,
     lineTime l5 = Num.of_Z 5 -> lineTime l10 = Num.of_Z 10 ->
     lineTime l15 = Num.of_Z 15 ->
     getCurrentLine [l5; l10; l15] (Num.of_Z 7) = Some l5 /\
     getCurrentLine [l5; l10; l15] (Num.of_Z 15) = Some l15 /\
     getCurrentLine [l5; l10; l15] (Num.of_Z 3) = None /\
     getCurrentLine [l5; l10; l15] (Num.of_decimal false 15001 (-3)) = Some l15).
Proof.
  split.
  - intros lines t Hs. unfold getCurrentLine.
    pose proof (getCurrentLine_from_spec lines t (length lines) (le_n _)) as H.
    destruct (getCurrentLine_from lines t (length lines)) as [l |].
    + destruct H as (i & Hi & Hl & Hle & Hlast).
      exists i. repeat split; [assumption | assumption | |].
      * intros j l' Hj Hl'. apply (Hlast j); [| assumption].
        apply lookup_lt_Some in Hl'. lia.
      * intros l' [k Hk]%list_elem_of_lookup Hle'.
        destruct (Nat.lt_trichotomy k i) as [Hlt | [-> | Hgt]].
        -- eapply Sorted_time_le_lookup; eassumption.
        -- replace l' with l by congruence. unfold time_le.
           apply num_le_refl. now apply num_le_not_nan in Hle.
        -- pose proof (lookup_lt_Some _ _ _ Hk).
           rewrite (Hlast k l') in Hle'; [discriminate | lia | assumption].
    + intros l' [k Hk]%list_elem_of_lookup.
      apply (H k); [| assumption]. eapply lookup_lt_Some, Hk.
  - intros l5 l10 l15 H5 H10 H15. unfold getCurrentLine.
    cbn [length getCurrentLine_from lookup list_lookup].
    rewrite H5, H10, H15. repeat split; reflexivity.
Qed.

Lemma getCurrentLine_last_started_witness :
  let lines := [line_at (Num.of_Z 5) "a"; line_at (Num.of_Z 10) "b";
                line_at (Num.of_Z 10) "c"; line_at (Num.of_Z 15) "d"] in
  Sorted time_le lines /\
  getCurrentLine lines (Num.of_Z 12) = Some (line_at (Num.of_Z 10) "c") /\
  match getCurrentLine lines (Num.of_Z 12) with
  | Some l =>
      exists i,
        lines !! i = Some l /\ Num.le (lineTime l) (Num.of_Z 12) = true /\
        (forall j l', i < j -> lines !! j = Some l' ->
                      Num.le (lineTime l') (Num.of_Z 12) = false) /\
        (forall l', l' ∈ lines -> Num.le (lineTime l') (Num.of_Z 12) = true ->
                    time_le l' l)
  | None => forall l', l' ∈ lines -> Num.le (lineTime l') (Num.of_Z 12) = false
  end.
Proof.
  intros lines.
  assert (Hs : Sorted time_le lines) by (repeat constructor).
  split; [exact Hs |]. split; [reflexivity |].
  exact (proj1 getCurrentLine_last_started lines (Num.of_Z 12) Hs).
Defined.

(** C2.  The output of [parseLrc] is sorted ascending by time whatever the
    input: each entry's time is at most the time of the entry after it. *)
Theorem parseLrc_sorted :
  forall lrcContent,
    Sorted time_le (parseLrc lrcContent) /\
    forall i a b,
      parseLrc lrcContent !! i = Some a ->
      parseLrc lrcContent !! S i = Some b ->
      Num.le (lineTime a) (lineTime b) = true.
Proof.
  intros s. pose proof (parseLrc_Sorted s) as H. split; [exact H |].
  intros i a b Ha Hb.
  eapply Sorted_time_le_lookup; [exact H | | exact Ha | exact Hb]. lia.
Qed.

Lemma parseLrc_sorted_witness :
  parseLrc (lit "[00:03] c" ++ LF :: lit "[00:02] b" ++ LF :: lit "[00:01] a")
  = [line_at (Num.of_Z 1) "a"; line_at (Num.of_Z 2) "b";
     line_at (Num.of_Z 3) "c"] /\
  Num.le (Num.of_Z 1) (Num.of_Z 2) = true.
Proof.
  split; [reflexivity |].
  exact (proj2 (parseLrc_sorted
                  (lit "[00:03] c" ++ LF :: lit "[00:02] b" ++ LF
                   :: lit "[00:01] a"))
               0 (line_at (Num.of_Z 1) "a") (line_at (Num.of_Z 2) "b")
               eq_refl eq_refl).
Defined.

(** C3.  A line that has a well-formed timestamp tag has a leftmost one;
    with [g1] and [g2] the fields of that tag the line gives a record
    whose time is [minutes * 60 + seconds], the minutes being the integer
    written by [g1] and the seconds the decimal written by [g2], fraction
    included; the record is in the output of [parseLrc] for any input
    having that line.  A line tagged [[01:02.500]] has the time 62.5. *)
Theorem parse_line_time :
  (forall line,
     (exists pre g1 g2 post, tag_at line pre g1 g2 post) ->
     exists pre g1 g2 post, first_tag line pre g1 g2 post) /\
  (forall line pre g1 g2 post,
     first_tag line pre g1 g2 post ->
     exists l,
       parse_line line = Some l /\
       lineTime l = Num.add (Num.mul (Num.of_Z (digits_val g1)) (Num.of_Z 60))
                            (seconds_value g2) /\
       forall lrcContent,
         line ∈ Str.split LF lrcContent -> l ∈ parseLrc lrcContent) /\
  (forall line pre post,
     first_tag line pre (lit "01") (lit "02.500") post ->
     exists l, parse_line line = Some l /\
               lineTime l = Num.of_decimal false 625 (-1)).
Proof.
  assert (H : forall line pre g1 g2 post,
             first_tag line pre g1 g2 post ->
             exists l, parse_line line = Some l /\ lineTime l = tag_time g1 g2).
  { intros line pre g1 g2 post F.
    rewrite (parse_line_first_tag _ _ _ _ _ F). cbv zeta.
    destruct (RegExp.exec styleRegex _); eauto. }
  split; [| split].
  - intros line Ht.
    destruct (RegExp.exec timeRegex line) as [m |] eqn:E.
    + apply exec_first_tag in E as (g1 & g2 & _ & F). eauto.
    + apply exec_no_tag in E. contradiction.
  - intros line pre g1 g2 post F. destruct (H _ _ _ _ _ F) as (l & Hl & Ht).
    exists l. repeat split; [assumption .. |].
    intros content Hin. apply elem_of_parseLrc. eauto.
  - intros line pre post F. destruct (H _ _ _ _ _ F) as (l & Hl & Ht).
    exists l. split; [assumption |]. rewrite Ht. reflexivity.
Qed.

Lemma first_tag_here g1 g2 post :
  two_digits g1 = true -> seconds_field g2 = true ->
  first_tag (tag g1 g2 ++ post) [] g1 g2 post.
Proof.
  intros H1 H2. split; [now split |]. intros; cbn; lia.
Qed.

Lemma parse_line_time_witness :
  first_tag (lit "[01:02.500] hello") [] (lit "01") (lit "02.500")
            (lit " hello") /\
  exists l, parse_line (lit "[01:02.500] hello") = Some l /\
            lineTime l = Num.of_decimal false 625 (-1).
Proof.
  assert (F : first_tag (lit "[01:02.500] hello") [] (lit "01") (lit "02.500")
                        (lit " hello")).
  { split; [split; [reflexivity | split; reflexivity] | intros; cbn; lia]. }
  split; [exact F |].
  exact (proj2 (proj2 parse_line_time) _ _ _ F).
Defined.

(** The Number 62.5 is [125 / 2], that is [125 * 2^46 * 2^-47] in
    canonical form. *)
Example sixty_two_and_a_half :
  Num.of_decimal false 625 (-1) = Num.div (Num.of_Z 125) (Num.of_Z 2) /\
  Num.of_decimal false 625 (-1) = S754_finite false (125 * 2 ^ 46) (-47).
Proof. split; reflexivity. Qed.

(** C4, as stated, fails: [12px] is not a numeric value, the whole of it
    not being a number, and yet the pair [size:12px] stores the number 12,
    not the string.  And the retained pair [__proto__:5] stores nothing. *)
Lemma style_value_stored_counterexample :
  numeric_value (lit "12px") = false /\
  parse_style (lit "size:12px") !! lit "size" = Some (StyleNumber (Num.of_Z 12)) /\
  parse_style (lit "size:12px") !! lit "size" <> Some (StyleString (lit "12px")) /\
  parse_style (lit "__proto__:5") !! lit "__proto__" = None.
Proof.
  split; [reflexivity |]. split; [vm_compute; reflexivity |].
  split; [| vm_compute; reflexivity].
  intros H. vm_compute in H. discriminate H.
Qed.

(** C4, amended.  For a retained pair whose key is not [__proto__], the
    mapping stores under the trimmed key: a number when the trimmed value
    starts like a number (after an optional sign: a digit, a dot and a
    digit, or [Infinity]), namely the number of the longest prefix that is
    a decimal literal, what follows the prefix being dropped; the trimmed
    string verbatim otherwise.  So [true] and [diag] are stored as strings,
    [12px] as the number 12, and [{size:100, font:gothic}] gives the number
    100 for [size] and the string [gothic] for [font]. *)
Theorem style_value_stored :
  (forall style k v,
     no_colon k -> no_colon v ->
     Str.trim k <> [] -> Str.trim v <> [] -> Str.trim k <> lit "__proto__" ->
     parse_pair style (k ++ code ":" :: v) !! Str.trim k
     = Some (stored_value (Str.trim v))) /\
  (forall val,
     starts_numeric val = true ->
     exists n rest, scan_decimal_literal val = Some (n, rest) /\
                    stored_value val = StyleNumber n /\ Num.isNaN n = false) /\
  (forall val, starts_numeric val = false -> stored_value val = StyleString val) /\
  stored_value (lit "true") = StyleString (lit "true") /\
  stored_value (lit "diag") = StyleString (lit "diag") /\
  stored_value (lit "12px") = StyleNumber (Num.of_Z 12) /\
  parse_style (lit "size:100, font:gothic")
  = {[ lit "size" := StyleNumber (Num.of_Z 100);
       lit "font" := StyleString (lit "gothic") ]}.
Proof.
  split; [| split; [| split]].
  - intros style k v Hk Hv Tk Tv Hp. rewrite parse_pair_two by assumption.
    apply truthy_spec in Tk, Tv. rewrite Tk, Tv. cbn [andb].
    now apply Object_set_lookup.
  - apply stored_value_number.
  - apply stored_value_string.
  - do 3 (split; [reflexivity |]). vm_compute. reflexivity.
Qed.

Lemma style_value_stored_witness :
  no_colon (lit " size") /\ no_colon (lit " 100 ") /\
  Str.trim (lit " size") <> [] /\ Str.trim (lit " 100 ") <> [] /\
  Str.trim (lit " size") <> lit "__proto__" /\
  parse_pair ∅ (lit " size: 100 ") !! lit "size"
  = Some (StyleNumber (Num.of_Z 100)).
Proof.
  assert (H1 : no_colon (lit " size")) by (repeat constructor).
  assert (H2 : no_colon (lit " 100 ")) by (repeat constructor).
  assert (H3 : Str.trim (lit " size") <> []) by discriminate.
  assert (H4 : Str.trim (lit " 100 ") <> []) by discriminate.
  assert (H5 : Str.trim (lit " size") <> lit "__proto__") by discriminate.
  repeat (split; [assumption |]).
  exact (proj1 style_value_stored ∅ (lit " size") (lit " 100 ") H1 H2 H3 H4 H5).
Defined.

(** C5, as stated, fails: cut at its first colon the segment [url:a:b] has
    the value [a:b], and the parser stores [a]. *)
Lemma style_pair_split_counterexample :
  split_first_colon (lit "url:a:b") = Some (lit "url", lit "a:b") /\
  parse_style (lit "url:a:b") !! lit "url" = Some (StyleString (lit "a")) /\
  parse_style (lit "url:a:b") !! lit "url" <> Some (StyleString (lit "a:b")).
Proof.
  split; [reflexivity |]. split; [vm_compute; reflexivity |].
  intros H. vm_compute in H. discriminate H.
Qed.

(** C5, amended.  The annotation content is split on every comma and each
    segment on every colon; the first piece, trimmed, is the key and the
    second, trimmed, the value, and what follows a second colon is dropped.
    A segment with no colon, or whose key or value is empty once trimmed,
    changes nothing, and a pair changes no key but its own.  The pairs are
    stored from left to right, so that the last retained pair with a key
    (other than [__proto__]) decides its value. *)
Theorem style_pair_split :
  (forall content1 content2,
     parse_style (content1 ++ code "," :: content2)
     = fold_left parse_pair (Str.split (code ",") content2)
                 (parse_style content1)) /\
  (forall style k v,
     no_colon k -> no_colon v ->
     parse_pair style (k ++ code ":" :: v)
     = if truthy (Str.trim k) && truthy (Str.trim v)
       then Object_set style (Str.trim k) (stored_value (Str.trim v))
       else style) /\
  (forall style k v more,
     no_colon k -> no_colon v ->
     parse_pair style (k ++ code ":" :: v ++ code ":" :: more)
     = parse_pair style (k ++ code ":" :: v)) /\
  (forall style seg, malformed_pair seg -> parse_pair style seg = style) /\
  (forall style k v key,
     no_colon k -> no_colon v -> key <> Str.trim k ->
     parse_pair style (k ++ code ":" :: v) !! key = style !! key) /\
  (forall content k v,
     no_colon k -> no_colon v -> no_comma k -> no_comma v ->
     Str.trim k <> [] -> Str.trim v <> [] -> Str.trim k <> lit "__proto__" ->
     parse_style (content ++ code "," :: k ++ code ":" :: v) !! Str.trim k
     = Some (stored_value (Str.trim v))) /\
  parse_style (lit "a:1, a:2") = {[ lit "a" := StyleNumber (Num.of_Z 2) ]}.
Proof.
  split.
  { intros c1 c2. unfold parse_style. now rewrite split_app_sep, fold_left_app. }
  split; [apply parse_pair_two |].
  split; [apply parse_pair_cut |]. split; [apply malformed_pair_discarded |].
  split.
  { intros style k v key Hk Hv Hne. rewrite parse_pair_two by assumption.
    destruct (truthy (Str.trim k) && truthy (Str.trim v)); [| reflexivity].
    now apply Object_set_lookup_ne. }
  split; [| vm_compute; reflexivity].
  intros content k v Hk Hv Ck Cv Tk Tv Hp.
  rewrite parse_style_snoc.
  - rewrite parse_pair_two by assumption.
    apply truthy_spec in Tk, Tv. rewrite Tk, Tv. cbn [andb].
    now apply Object_set_lookup.
  - apply Forall_app. split; [assumption |]. constructor; [discriminate | assumption].
Qed.

Lemma style_pair_split_witness :
  no_colon (lit "url") /\ no_colon (lit "a") /\
  parse_pair ∅ (lit "url:a:b") = parse_pair ∅ (lit "url:a") /\
  parse_pair ∅ (lit "url:a:b") = {[ lit "url" := StyleString (lit "a") ]}.
Proof.
  assert (H1 : no_colon (lit "url")) by (repeat constructor).
  assert (H2 : no_colon (lit "a")) by (repeat constructor).
  repeat (split; [assumption |]).
  split; [| vm_compute; reflexivity].
  exact (proj1 (proj2 (proj2 style_pair_split)) ∅ (lit "url") (lit "a") (lit "b")
               H1 H2).
Defined.

(** C6.  [parseLrc] is a total function, no step of it can throw.  The
    empty input gives the empty sequence.  The output holds, up to order,
    one record for each line that has a well-formed tag and nothing for
    the others: a line without one gives no record, and taking such a line
    out of the input does not change the output.  A style segment without
    a colon, such as [color], leaves the style as it is, so that [{color}]
    gives the empty style and the other pairs of the annotation are kept. *)
Theorem parseLrc_tolerant :
  parseLrc [] = [] /\
  (forall lrcContent,
     parseLrc lrcContent ≡ₚ omap parse_line (Str.split LF lrcContent)) /\
  (forall line,
     ~ (exists pre g1 g2 post, tag_at line pre g1 g2 post) ->
     parse_line line = None) /\
  (forall a line b,
     Forall (fun c => c <> LF) line ->
     ~ (exists pre g1 g2 post, tag_at line pre g1 g2 post) ->
     parseLrc (a ++ LF :: line ++ LF :: b) = parseLrc (a ++ LF :: b)) /\
  (forall style seg, no_colon seg -> parse_pair style seg = style) /\
  parseLrc (lit "[00:01] x {color}")
  = [{| lineTime := Num.of_Z 1; text := lit "x"; style := Some ∅ |}] /\
  parseLrc (lit "[00:01] x {color, size:3}")
  = [{| lineTime := Num.of_Z 1; text := lit "x";
        style := Some {[ lit "size" := StyleNumber (Num.of_Z 3) ]} |}].
Proof.
  split; [reflexivity |]. split; [apply parseLrc_Permutation |].
  split; [intros line; apply parse_line_None |].
  split; [| split; [apply parse_pair_no_colon |]].
  - intros a line b Hl Hn. apply parseLrc_skip; [assumption |].
    now apply parse_line_None.
  - split; vm_compute; reflexivity.
Qed.

Lemma no_tag_without_bracket line :
  Forall (fun c => is_char "[" c = false) line ->
  ~ (exists pre g1 g2 post, tag_at line pre g1 g2 post).
Proof.
  intros F (pre & g1 & g2 & post & -> & _).
  apply Forall_app in F as [_ F]. unfold tag in F. cbn [app] in F.
  apply Forall_cons in F as [F _]. discriminate F.
Qed.

Lemma parseLrc_tolerant_witness :
  (~ exists pre g1 g2 post, tag_at (lit "[ti:title]") pre g1 g2 post) /\
  parse_line (lit "[ti:title]") = None /\
  (~ exists pre g1 g2 post, tag_at (lit "chorus") pre g1 g2 post) /\
  parseLrc (lit "[00:02] b" ++ LF :: lit "chorus" ++ LF :: lit "[00:01] a")
  = parseLrc (lit "[00:02] b" ++ LF :: lit "[00:01] a").
Proof.
  assert (H1 : ~ exists pre g1 g2 post, tag_at (lit "[ti:title]") pre g1 g2 post).
  { apply exec_no_tag. reflexivity. }
  assert (H2 : ~ exists pre g1 g2 post, tag_at (lit "chorus") pre g1 g2 post).
  { apply no_tag_without_bracket. repeat constructor. }
  split; [exact H1 |].
  split; [exact (proj1 (proj2 (proj2 parseLrc_tolerant)) _ H1) |].
  split; [exact H2 |].
  refine (proj1 (proj2 (proj2 (proj2 parseLrc_tolerant)))
                (lit "[00:02] b") (lit "chorus") (lit "[00:01] a") _ H2).
  repeat constructor; discriminate.
Defined.

(** C7.  A line with a well-formed tag gives a record even when nothing is
    left of it for display: with nothing but white space around the tag the
    record has the empty text, the time of the tag and no style; with
    nothing but an annotation it has the empty text, the time, and the
    style of the annotation.  The record is in the output of [parseLrc].
    The input [[00:10.000]] gives one record with the empty text, the time
    10 and no style. *)
Theorem empty_text_line_emitted :
  (forall line pre g1 g2 post,
     first_tag line pre g1 g2 post -> Str.trim (pre ++ post) = [] ->
     parse_line line
     = Some {| lineTime := tag_time g1 g2; text := []; style := None |}) /\
  (forall line pre g1 g2 post c,
     first_tag line pre g1 g2 post ->
     Str.trim (pre ++ post) = code "{" :: c ++ [code "}"] ->
     Forall (fun x => is_char "}" x = false /\ is_line_terminator x = false) c ->
     parse_line line
     = Some {| lineTime := tag_time g1 g2; text := [];
               style := Some (parse_style c) |}) /\
  (forall lrcContent line l,
     line ∈ Str.split LF lrcContent -> parse_line line = Some l ->
     l ∈ parseLrc lrcContent) /\
  parseLrc (lit "[00:10.000]")
  = [{| lineTime := Num.of_Z 10; text := []; style := None |}].
Proof.
  split; [| split; [| split; [| reflexivity]]].
  - intros line pre g1 g2 post F E.
    rewrite (parse_line_first_tag _ _ _ _ _ F). cbv zeta. now rewrite E.
  - intros line pre g1 g2 post c F E Fc.
    now rewrite (parse_line_annotated line pre g1 g2 post [] c [] F E).
  - intros content line l Hin Hl. apply elem_of_parseLrc. eauto.
Qed.

Lemma empty_text_line_emitted_witness :
  first_tag (lit " [00:10.000] ") (lit " ") (lit "00") (lit "10.000") (lit " ") /\
  Str.trim (lit " " ++ lit " ") = [] /\
  parse_line (lit " [00:10.000] ")
  = Some {| lineTime := tag_time (lit "00") (lit "10.000"); text := [];
            style := None |}.
Proof.
  assert (F : first_tag (lit " [00:10.000] ") (lit " ") (lit "00")
                        (lit "10.000") (lit " ")).
  { split; [split; [reflexivity | split; reflexivity] |].
    intros pre' g1' g2' post' (E & T1 & T2).
    destruct pre' as [| c pre']; [| cbn; lia].
    exfalso. unfold tag in E. cbn [app] in E. discriminate E. }
  split; [exact F |]. split; [reflexivity |].
  exact (proj1 empty_text_line_emitted _ _ _ _ _ F eq_refl).
Defined.

(** C8.  The style of a record is absent exactly when its line carries no
    annotation (an opening brace and, further right with no line
    terminator between, a closing brace).  When the first annotation has
    malformed segments only, the empty annotation [{}] included, the style
    is present and empty. *)
Theorem style_absent_iff_no_annotation :
  (forall line l,
     parse_line line = Some l -> (style l = None <-> ~ has_annotation line)) /\
  (forall line pre g1 g2 post a c b,
     first_tag line pre g1 g2 post ->
     Str.trim (pre ++ post) = a ++ code "{" :: c ++ code "}" :: b ->
     Forall (fun x => is_char "{" x = false) a ->
     Forall (fun x => is_char "}" x = false /\ is_line_terminator x = false) c ->
     Forall malformed_pair (Str.split (code ",") c) ->
     exists l, parse_line line = Some l /\ style l = Some ∅) /\
  parse_style [] = ∅ /\
  parseLrc (lit "[00:01] x {}")
  = [{| lineTime := Num.of_Z 1; text := lit "x"; style := Some ∅ |}] /\
  parseLrc (lit "[00:01] x { , a: ,:b,c}")
  = [{| lineTime := Num.of_Z 1; text := lit "x"; style := Some ∅ |}] /\
  parseLrc (lit "[00:01] x")
  = [{| lineTime := Num.of_Z 1; text := lit "x"; style := None |}].
Proof.
  split; [apply parse_line_style_None |]. split.
  - intros line pre g1 g2 post a c b F E Fa Fc Hm.
    rewrite (parse_line_annotated line pre g1 g2 post a c b F E Fa Fc).
    eexists. split; [reflexivity |]. cbn [style].
    now rewrite parse_style_all_malformed.
  - split; [reflexivity |]. repeat split; vm_compute; reflexivity.
Qed.

Lemma style_absent_iff_no_annotation_witness :
  parse_line (lit "[00:01] x }{")
  = Some {| lineTime := Num.of_Z 1; text := lit "x }{"; style := None |} /\
  (style {| lineTime := Num.of_Z 1; text := lit "x }{"; style := None |} = None
   <-> ~ has_annotation (lit "[00:01] x }{")).
Proof.
  split; [reflexivity |].
  exact (proj1 style_absent_iff_no_annotation (lit "[00:01] x }{") _ eq_refl).
Defined.

(** C9.  The seconds of a tag are not checked against 60.  Any two digits
    are accepted, and the time of the record is [60 * minutes + seconds]
    with the seconds up to 99.  [[00:99]] has the time 99 and [[01:00]]
    the time 60, so that in the output, which is sorted by time, the line
    tagged [[01:00]] stands before the line tagged [[00:99]]. *)
Theorem seconds_not_range_checked :
  (forall g1 d1 d2 post,
     two_digits g1 = true -> is_digit d1 = true -> is_digit d2 = true ->
     exists l,
       parse_line (tag g1 [d1; d2] ++ post) = Some l /\
       lineTime l = Num.add (Num.of_Z (60 * digits_val g1))
                            (Num.of_Z (10 * digit_val d1 + digit_val d2))) /\
  (forall post,
     exists l, parse_line (lit "[00:99]" ++ post) = Some l /\
               lineTime l = Num.of_Z 99) /\
  (forall post,
     exists l, parse_line (lit "[01:00]" ++ post) = Some l /\
               lineTime l = Num.of_Z 60) /\
  parseLrc (lit "[00:99] a" ++ LF :: lit "[01:00] b")
  = [line_at (Num.of_Z 60) "b"; line_at (Num.of_Z 99) "a"] /\
  Num.lt (Num.of_Z 60) (Num.of_Z 99) = true.
Proof.
  assert (H : forall g1 g2 post,
             two_digits g1 = true -> seconds_field g2 = true ->
             exists l, parse_line (tag g1 g2 ++ post) = Some l /\
                       lineTime l = tag_time g1 g2).
  { intros g1 g2 post T1 T2.
    rewrite (parse_line_first_tag _ _ _ _ _ (first_tag_here g1 g2 post T1 T2)).
    cbv zeta. destruct (RegExp.exec styleRegex _); eauto. }
  split; [| split; [| split; [| split; reflexivity]]].
  - intros g1 d1 d2 post T1 D1 D2.
    destruct (H g1 [d1; d2] post T1) as (l & Hl & Ht).
    { cbn [seconds_field]. now rewrite D1, D2. }
    exists l. split; [assumption |]. rewrite Ht. unfold tag_time.
    rewrite minutes_times_60 by assumption. f_equal.
    unfold seconds_value.
    destruct (digits_val_two d1 d2 D1 D2) as [E R]. rewrite <- E.
    apply of_decimal_int. lia.
  - intros post. destruct (H (lit "00") (lit "99") post eq_refl eq_refl)
      as (l & Hl & Ht).
    exists l. split; [exact Hl | rewrite Ht; reflexivity].
  - intros post. destruct (H (lit "01") (lit "00") post eq_refl eq_refl)
      as (l & Hl & Ht).
    exists l. split; [exact Hl | rewrite Ht; reflexivity].
Qed.

Lemma seconds_not_range_checked_witness :
  two_digits (lit "02") = true /\ is_digit (code "7") = true /\
  is_digit (code "5") = true /\
  exists l, parse_line (lit "[02:75] late") = Some l /\
            lineTime l = Num.of_Z 195.
Proof.
  repeat (split; [reflexivity |]).
  destruct (proj1 seconds_not_range_checked (lit "02") (code "7") (code "5")
                  (lit " late") eq_refl eq_refl eq_refl) as (l & Hl & Ht).
  exists l. split; [exact Hl |]. rewrite Ht. reflexivity.
Defined.

(** C10.  The tag is looked for anywhere in the line and only its leftmost
    occurrence is cut out: for a line without annotation the text of the
    record is what stands before and after that occurrence, trimmed as one
    string; for a line with an annotation, the same with the first
    annotation cut out as well.  A second tag further right stays in the
    text. *)
Theorem tag_anywhere_first_removed :
  (forall line pre g1 g2 post,
     first_tag line pre g1 g2 post -> ~ has_annotation line ->
     parse_line line
     = Some {| lineTime := tag_time g1 g2; text := Str.trim (pre ++ post);
               style := None |}) /\
  (forall line pre g1 g2 post a c b,
     first_tag line pre g1 g2 post ->
     Str.trim (pre ++ post) = a ++ code "{" :: c ++ code "}" :: b ->
     Forall (fun x => is_char "{" x = false) a ->
     Forall (fun x => is_char "}" x = false /\ is_line_terminator x = false) c ->
     parse_line line
     = Some {| lineTime := tag_time g1 g2; text := Str.trim (a ++ b);
               style := Some (parse_style c) |}) /\
  (forall line pre g1 g2 p1 g1' g2' p2,
     first_tag line pre g1 g2 (p1 ++ tag g1' g2' ++ p2) ->
     ~ has_annotation line ->
     exists l x y, parse_line line = Some l /\
                   lineTime l = tag_time g1 g2 /\
                   text l = x ++ tag g1' g2' ++ y) /\
  parse_line (lit "intro [00:05] mid [00:07] end")
  = Some (line_at (Num.of_Z 5) "intro  mid [00:07] end").
Proof.
  split; [apply parse_line_plain |]. split; [apply parse_line_annotated |].
  split; [| reflexivity].
  intros line pre g1 g2 p1 g1' g2' p2 F Hn.
  rewrite (parse_line_plain _ _ _ _ _ F Hn).
  destruct (trim_keeps_tag (pre ++ p1) g1' g2' p2) as (x & y & E).
  rewrite <- app_assoc in E.
  eexists _, x, y. split; [reflexivity |]. split; [reflexivity | exact E].
Qed.

Lemma tag_anywhere_first_removed_witness :
  first_tag (lit "intro [00:05] mid") (lit "intro ") (lit "00") (lit "05")
            (lit " mid") /\
  ~ has_annotation (lit "intro [00:05] mid") /\
  parse_line (lit "intro [00:05] mid")
  = Some {| lineTime := tag_time (lit "00") (lit "05");
            text := Str.trim (lit "intro " ++ lit " mid"); style := None |}.
Proof.
  assert (F : first_tag (lit "intro [00:05] mid") (lit "intro ") (lit "00")
                        (lit "05") (lit " mid")).
  { apply (proj2 (exec_first_tag_iff _ _ _ _ _)). reflexivity. }
  assert (Hn : ~ has_annotation (lit "intro [00:05] mid")).
  { intros H%has_annotation_scan. discriminate H. }
  split; [exact F |]. split; [exact Hn |].
  exact (proj1 tag_anywhere_first_removed _ _ _ _ _ F Hn).
Defined.

(** * Facts about the component *)

(** ** The sign of a difference *)

Section DifferenceSign.
Import Num.
Local Open Scope Z_scope.

(** [x - y] compares with zero as [x] compares with [y], on well-formed
    non-negative numbers that are not both infinite. *)
Lemma sub_compare x y :
  wf_nonneg x = true -> wf_nonneg y = true ->
  x <> S754_infinity false \/ y <> S754_infinity false ->
  SFcompare (sub x y) zero = SFcompare x y.
Proof.
  destruct x as [sx | [] | | [] mx ex], y as [sy | [] | | [] my ey];
    intros Hx Hy Hi; try discriminate; try (cbn; reflexivity).
  - destruct sx, sy; reflexivity.
  - destruct Hi as [Hi | Hi]; congruence.
  - cbn in Hx, Hy. unfold sub. cbn [SFsub cond_Zopp].
    pose proof (compare_finite_canonical mx ex my ey Hx Hy) as Cxy.
    apply bounded_canonical in Hx, Hy.
    set (ez := Z.min ex ey) in *.
    rewrite Cxy.
    rewrite <- (shl_align_val mx ex ez), <- (shl_align_val my ey ez) by lia.
    set (X := Z.pos (fst (shl_align mx ex ez))).
    set (Y := Z.pos (fst (shl_align my ey ez))).
    clearbody X Y. unfold binary_normalize.
    destruct (X - Y) as [| p | p] eqn:D.
    + cbn. replace Y with X by lia. now rewrite Z.compare_refl.
    + pose proof (binary_round_wf false p ez) as W.
      destruct (binary_round prec emax false p ez) as [s | s | | s m' e'];
        cbn; try tauto.
      * lia.
      * subst s. cbn. destruct (Z.compare_spec X Y); (reflexivity || lia).
      * destruct W as [-> _]. cbn.
        destruct (Z.compare_spec X Y); (reflexivity || lia).
    + pose proof (binary_round_wf true p ez) as W.
      destruct (binary_round prec emax true p ez) as [s | s | | s m' e'];
        cbn; try tauto.
      * lia.
      * subst s. cbn. destruct (Z.compare_spec X Y); (reflexivity || lia).
      * destruct W as [-> _]. cbn.
        destruct (Z.compare_spec X Y); (reflexivity || lia).
Qed.

(** A number minus itself is never above zero. *)
Lemma sub_diag_not_gt x : gt (sub x x) zero = false.
Proof.
  destruct x as [s | [] | | s m e]; try reflexivity.
  - destruct s; reflexivity.
  - unfold sub. cbn [SFsub]. rewrite Z.sub_diag. reflexivity.
Qed.

(** Numbers that are equal as [<=] both ways do not make the
    comparator of the sort positive. *)
Lemma sub_le_not_gt x y :
  wf_nonneg x = true -> wf_nonneg y = true ->
  le x y = true -> gt (sub x y) zero = false.
Proof.
  intros Hx Hy Hle.
  assert (x = S754_infinity false \/ x <> S754_infinity false) as [-> | Nx].
  { destruct x as [| [] | |]; (now left) || (now right). }
  - destruct y as [sy | [] | | [] my ey]; try discriminate; reflexivity.
  - unfold gt, lt.
    assert (SFcompare zero (sub x y)
            = option_map CompOpp (SFcompare (sub x y) zero)) as E.
    { destruct (sub x y) as [s | [] | | [] m e]; reflexivity. }
    rewrite E, sub_compare by auto.
    unfold le in Hle.
    assert (SFcompare y x = option_map CompOpp (SFcompare x y)) as E2.
    { clear -Hx Hy.
      destruct x as [sx | [] | | [] mx ex], y as [sy | [] | | [] my ey];
        try discriminate; try reflexivity; cbn.
      rewrite (Z.compare_antisym ex ey).
      destruct (ex ?= ey) eqn:C; cbn; try reflexivity.
      rewrite (Pos.compare_cont_antisym mx my Eq). reflexivity. }
    rewrite E2 in Hle.
    destruct (SFcompare x y) as [[] |]; cbn in *; congruence.
Qed.
End DifferenceSign.

(** ** The active line *)

(** The loop stops at the first line that has not started: it returns
    [k - 1] for the length [k] of the longest prefix of started lines. *)
Lemma activeIndex_from_spec lines t : forall fuel i,
  i + fuel = length lines ->
  exists k,
    i <= k <= length lines /\
    activeIndex_from lines t fuel i (Z.of_nat i - 1) = (Z.of_nat k - 1)%Z /\
    (forall j l, i <= j < k -> lines !! j = Some l ->
                 Num.ge t (lineTime l) = true) /\
    (forall l, lines !! k = Some l -> Num.ge t (lineTime l) = false).
Proof.
  induction fuel as [| fuel IH]; intros i Hi; cbn [activeIndex_from].
  - exists i. repeat split; try lia.
    intros l Hl. apply lookup_lt_Some in Hl. lia.
  - destruct (lookup_lt_is_Some_2 lines i ltac:(lia)) as [l Hl]. rewrite Hl.
    destruct (Num.ge t (lineTime l)) eqn:E.
    + destruct (IH (S i) ltac:(lia)) as (k & Hk & Hr & Hs & Hn).
      replace (Z.of_nat (S i) - 1)%Z with (Z.of_nat i) in Hr by lia.
      exists k. repeat split; [lia | lia | exact Hr | | exact Hn].
      intros j l' Hj Hl'. destruct (decide (j = i)) as [-> | Hne].
      * congruence.
      * apply (Hs j); [lia | assumption].
    + exists i. repeat split; try lia. intros l' Hl'. congruence.
Qed.

Lemma activeIndex_spec lines t :
  exists k,
    k <= length lines /\
    activeIndex lines t = (Z.of_nat k - 1)%Z /\
    (forall j l, j < k -> lines !! j = Some l -> Num.ge t (lineTime l) = true) /\
    (forall l, lines !! k = Some l -> Num.ge t (lineTime l) = false).
Proof.
  destruct (activeIndex_from_spec lines t (length lines) 0 eq_refl)
    as (k & Hk & Hr & Hs & Hn).
  exists k. repeat split; [lia | exact Hr | | exact Hn].
  intros j l Hj. apply Hs. lia.
Qed.

(** X1.  [activeIndex] is at least -1 and below the number of lines;
    every line up to it has started ([currentTime >= lineTime]), and the
    line right after it, if there is one, has not.  No order of the lines
    is assumed. *)
Theorem activeIndex_longest_started_prefix lines t :
  (-1 <= activeIndex lines t < Z.of_nat (length lines))%Z /\
  (forall j l, (Z.of_nat j <= activeIndex lines t)%Z -> lines !! j = Some l ->
               Num.ge t (lineTime l) = true) /\
  (forall l, lines !! Z.to_nat (activeIndex lines t + 1) = Some l ->
             Num.ge t (lineTime l) = false).
Proof.
  destruct (activeIndex_spec lines t) as (k & Hk & -> & Hs & Hn).
  split; [lia |]. split.
  - intros j l Hj. apply Hs. lia.
  - replace (Z.to_nat (Z.of_nat k - 1 + 1)) with k by lia. exact Hn.
Qed.

(** On sorted lines the started lines are a prefix, and the backward scan
    of [getCurrentLine] stops where the forward scan of [activeIndex]
    does. *)
Lemma getCurrentLine_activeIndex lines t :
  Sorted time_le lines ->
  getCurrentLine lines t
  = if (activeIndex lines t <? 0)%Z then None
    else lines !! Z.to_nat (activeIndex lines t).
Proof.
  intros Hs. destruct (activeIndex_spec lines t) as (k & Hk & -> & Ha & Hn).
  unfold getCurrentLine.
  pose proof (getCurrentLine_from_spec lines t (length lines) (le_n _)) as H.
  destruct (getCurrentLine_from lines t (length lines)) as [l |].
  - destruct H as (i & Hi & Hl & Hle & Hlast).
    assert (i < k) as Hik.
    { destruct (Nat.lt_ge_cases i k) as [| Hge]; [assumption | exfalso].
      destruct (lookup_lt_is_Some_2 lines k ltac:(lia)) as [lk Hlk].
      pose proof (Hn lk Hlk) as Hnk.
      destruct (decide (k = i)) as [-> | Hne].
      - replace lk with l in Hnk by congruence.
        change (Num.ge t (lineTime l)) with (Num.le (lineTime l) t) in Hnk.
        congruence.
      - assert (time_le lk l) as Hkl
            by (eapply (Sorted_time_le_lookup lines k i); try eassumption; lia).
        pose proof (num_le_trans _ _ _ Hkl Hle) as Hc.
        change (Num.ge t (lineTime lk)) with (Num.le (lineTime lk) t) in Hnk.
        congruence. }
    assert (k = S i) as ->.
    { destruct (Nat.lt_ge_cases (S i) k) as [Hlt |]; [exfalso | lia].
      destruct (lookup_lt_is_Some_2 lines (S i) ltac:(lia)) as [l' Hl'].
      pose proof (Ha (S i) l' Hlt Hl') as Hs'.
      change (Num.ge t (lineTime l')) with (Num.le (lineTime l') t) in Hs'.
      rewrite (Hlast (S i) l') in Hs'; [discriminate | lia | assumption]. }
    destruct (Z.ltb_spec (Z.of_nat (S i) - 1) 0); [lia |].
    replace (Z.to_nat (Z.of_nat (S i) - 1)) with i by lia. now symmetry.
  - destruct k as [| k]; [reflexivity | exfalso].
    destruct (lookup_lt_is_Some_2 lines k ltac:(lia)) as [l Hl].
    pose proof (Ha k l ltac:(lia) Hl) as Hs'.
    change (Num.ge t (lineTime l)) with (Num.le (lineTime l) t) in Hs'.
    rewrite (H k l) in Hs'; [discriminate | lia | assumption].
Qed.

(** X2.  What the component takes for the active line is what
    [getCurrentLine] returns: on lines sorted by time, and so on every
    output of [parseLrc], [getCurrentLine] gives the line at
    [activeIndex], and nothing when [activeIndex] is -1. *)
Theorem getCurrentLine_is_line_at_activeIndex :
  (forall lines t,
     Sorted time_le lines ->
     getCurrentLine lines t
     = if (activeIndex lines t <? 0)%Z then None
       else lines !! Z.to_nat (activeIndex lines t)) /\
  (forall content t,
     getCurrentLine (parseLrc content) t
     = if (activeIndex (parseLrc content) t <? 0)%Z then None
       else parseLrc content !! Z.to_nat (activeIndex (parseLrc content) t)).
Proof.
  split.
  - apply getCurrentLine_activeIndex.
  - intros content t. apply getCurrentLine_activeIndex, parseLrc_Sorted.
Qed.

Lemma getCurrentLine_is_line_at_activeIndex_witness :
  let lines := [line_at (Num.of_Z 5) "a"; line_at (Num.of_Z 10) "b";
                line_at (Num.of_Z 10) "c"; line_at (Num.of_Z 15) "d"] in
  Sorted time_le lines /\
  activeIndex lines (Num.of_Z 12) = 2%Z /\
  getCurrentLine lines (Num.of_Z 12) = lines !! 2.
Proof.
  intros lines.
  assert (Hs : Sorted time_le lines) by (repeat constructor).
  split; [exact Hs |]. split; [reflexivity |].
  exact (proj1 getCurrentLine_is_line_at_activeIndex lines (Num.of_Z 12) Hs).
Defined.

(** X3.  [activeIndex] does not go back as the time advances: a later
    time gives the same index or a greater one, whatever the order of the
    lines. *)
Theorem activeIndex_monotone lines t t' :
  Num.le t t' = true ->
  (activeIndex lines t <= activeIndex lines t')%Z.
Proof.
  intros Hle.
  destruct (activeIndex_spec lines t) as (k & Hk & -> & Ha & Hn).
  destruct (activeIndex_spec lines t') as (k' & Hk' & -> & Ha' & Hn').
  destruct (Nat.lt_ge_cases k' k) as [Hlt |]; [exfalso | lia].
  destruct (lookup_lt_is_Some_2 lines k' ltac:(lia)) as [l Hl].
  pose proof (Ha k' l Hlt Hl) as H1. pose proof (Hn' l Hl) as H2.
  change (Num.ge t (lineTime l)) with (Num.le (lineTime l) t) in H1.
  change (Num.ge t' (lineTime l)) with (Num.le (lineTime l) t') in H2.
  pose proof (num_le_trans _ _ _ H1 Hle). congruence.
Qed.

Lemma activeIndex_monotone_witness :
  let lines := [line_at (Num.of_Z 5) "a"; line_at (Num.of_Z 10) "b";
                line_at (Num.of_Z 15) "c"] in
  Num.le (Num.of_Z 7) (Num.of_decimal false 125 (-1)) = true /\
  activeIndex lines (Num.of_Z 7) = 0%Z /\
  activeIndex lines (Num.of_decimal false 125 (-1)) = 1%Z /\
  (activeIndex lines (Num.of_Z 7)
   <= activeIndex lines (Num.of_decimal false 125 (-1)))%Z.
Proof.
  intros lines. split; [reflexivity |]. split; [reflexivity |].
  split; [reflexivity |].
  exact (activeIndex_monotone lines (Num.of_Z 7) (Num.of_decimal false 125 (-1))
           eq_refl).
Defined.

(** ** The lines that are rendered *)

(** X4.  A line that passes the two tests of the rendering callback is
    the active line or the one before it, has a text that is not empty,
    and has started: a line whose time is still ahead is never
    rendered, and nothing is before the first line starts. *)
Theorem considered_line_has_started lines t i l :
  lines !! i = Some l ->
  line_considered (activeIndex lines t) i l = true ->
  (Z.of_nat i = activeIndex lines t \/ Z.of_nat i = activeIndex lines t - 1)%Z /\
  text l <> [] /\
  Num.ge t (lineTime l) = true /\
  (0 <= activeIndex lines t)%Z.
Proof.
  intros Hl Hc. unfold line_considered in Hc.
  apply andb_true_iff in Hc as [Hw Ht]. apply negb_true_iff in Hw.
  apply orb_false_iff in Hw as [H1 H2].
  apply Z.ltb_ge in H1, H2.
  destruct (activeIndex_spec lines t) as (k & Hk & E & Ha & Hn).
  rewrite E in *. repeat split.
  - lia.
  - now apply truthy_spec.
  - apply (Ha i); [lia | assumption].
  - lia.
Qed.

Lemma considered_line_has_started_witness :
  let lines := [line_at (Num.of_Z 5) "a"; line_at (Num.of_Z 10) "b";
                line_at (Num.of_Z 15) "c"] in
  let t := Num.of_Z 12 in
  lines !! 0 = Some (line_at (Num.of_Z 5) "a") /\
  line_considered (activeIndex lines t) 0 (line_at (Num.of_Z 5) "a") = true /\
  line_considered (activeIndex lines t) 2 (line_at (Num.of_Z 15) "c") = false /\
  Num.ge t (Num.of_Z 5) = true.
Proof.
  intros lines t. split; [reflexivity |]. split; [reflexivity |].
  split; [reflexivity |].
  exact (proj1 (proj2 (proj2
           (considered_line_has_started lines t 0 (line_at (Num.of_Z 5) "a")
              eq_refl eq_refl)))).
Defined.

(** ** The clocks of a line *)

Lemma ge_sub_zero t x :
  Num.wf_nonneg t = true -> isFinite t = true -> Num.wf_nonneg x = true ->
  Num.ge (Num.sub t x) Num.zero = Num.ge t x /\
  Num.lt (Num.sub t x) Num.zero = Num.lt t x.
Proof.
  intros Ht Hf Hx. unfold Num.ge, Num.lt.
  rewrite sub_compare; [split; reflexivity | assumption | assumption |].
  left. intros ->. discriminate.
Qed.

Lemma parseLrc_wf content i l :
  parseLrc content !! i = Some l -> Num.wf_nonneg (lineTime l) = true.
Proof.
  intros H%list_elem_of_lookup_2.
  apply elem_of_parseLrc in H as (line & _ & H). eapply parse_line_wf, H.
Qed.

(** X5.  The clocks of the lines of a parsed lyric, at a time that is a
    finite non-negative number: [timeSinceStart] is at least zero for
    every line up to the active one; [timeSinceEnd] is at least zero for
    every line before the active one, and below zero for the active line
    when a line follows it. *)
Theorem clocks_of_parsed_lines content t i l :
  Num.wf_nonneg t = true -> isFinite t = true ->
  parseLrc content !! i = Some l ->
  let lines := parseLrc content in
  ((Z.of_nat i <= activeIndex lines t)%Z ->
   Num.ge (timeSinceStart t l) Num.zero = true) /\
  ((Z.of_nat i < activeIndex lines t)%Z ->
   Num.ge (timeSinceEnd lines t i l) Num.zero = true) /\
  (Z.of_nat i = activeIndex lines t -> is_Some (lines !! S i) ->
   Num.lt (timeSinceEnd lines t i l) Num.zero = true).
Proof.
  intros Ht Hf Hl lines.
  destruct (activeIndex_spec lines t) as (k & Hk & -> & Ha & Hn).
  pose proof (parseLrc_wf content i l Hl) as Wl.
  split; [| split].
  - intros Hi. unfold timeSinceStart. cbv zeta.
    rewrite (proj1 (ge_sub_zero t _ Ht Hf Wl)). apply (Ha i); [lia | exact Hl].
  - intros Hi. unfold timeSinceEnd. cbv zeta.
    destruct (lookup_lt_is_Some_2 lines (S i) ltac:(lia)) as [n Hn'].
    rewrite Hn'. pose proof (parseLrc_wf content (S i) n Hn') as Wn.
    rewrite (proj1 (ge_sub_zero t _ Ht Hf Wn)).
    apply (Ha (S i)); [lia | exact Hn'].
  - intros Hi [n Hn']. unfold timeSinceEnd. cbv zeta. rewrite Hn'.
    pose proof (parseLrc_wf content (S i) n Hn') as Wn.
    rewrite (proj2 (ge_sub_zero t _ Ht Hf Wn)).
    replace k with (S i) in Hn by lia. specialize (Hn n Hn').
    unfold Num.ge in Hn. unfold Num.lt.
    destruct t as [st | [] | | [] mt et], (lineTime n) as [sn | [] | | [] mn en];
      try discriminate; try reflexivity;
      destruct (SFcompare _ _) as [[] |] eqn:C; try discriminate; try reflexivity;
      cbn in C; discriminate.
Qed.

Lemma clocks_of_parsed_lines_witness :
  let content := lit "[00:05] a" ++ LF :: lit "[00:10] b" in
  let t := Num.of_decimal false 75 (-1) in
  Num.wf_nonneg t = true /\ isFinite t = true /\
  parseLrc content !! 0 = Some (line_at (Num.of_Z 5) "a") /\
  activeIndex (parseLrc content) t = 0%Z /\
  timeSinceStart t (line_at (Num.of_Z 5) "a") = Num.of_decimal false 25 (-1) /\
  Num.ge (timeSinceStart t (line_at (Num.of_Z 5) "a")) Num.zero = true.
Proof.
  intros content t. split; [reflexivity |]. split; [reflexivity |].
  split; [reflexivity |]. split; [reflexivity |]. split; [reflexivity |].
  refine (proj1 (clocks_of_parsed_lines content t 0 (line_at (Num.of_Z 5) "a")
                   eq_refl eq_refl eq_refl) _).
  vm_compute. discriminate.
Defined.

(** ** The sort is stable *)

Section SortStable.
Context {A : Type} (comparefn : A -> A -> number) (P : A -> bool).
Hypothesis P_tie :
  forall x y, P x = true -> P y = true ->
              Num.gt (comparefn x y) Num.zero = false.

(** An element goes in before the elements it ties with. *)
Lemma sort_insert_filter x l :
  List.filter P (sort_insert comparefn x l) = List.filter P (x :: l).
Proof.
  induction l as [| y l IH]; [reflexivity |]. cbn [sort_insert].
  destruct (Num.gt (comparefn x y) Num.zero) eqn:E; [| reflexivity].
  cbn [List.filter] in *. rewrite IH.
  destruct (P x) eqn:Px, (P y) eqn:Py; try reflexivity.
  rewrite (P_tie x y Px Py) in E. discriminate.
Qed.

Lemma Array_sort_filter l :
  List.filter P (Array_sort comparefn l) = List.filter P l.
Proof.
  induction l as [| x l IH]; [reflexivity |].
  change (Array_sort comparefn (x :: l))
    with (sort_insert comparefn x (Array_sort comparefn l)).
  rewrite sort_insert_filter. cbn [List.filter]. now rewrite IH.
Qed.
End SortStable.

Lemma wf_nonneg_ge_zero x : Num.wf_nonneg x = true -> Num.ge x Num.zero = true.
Proof. destruct x as [s | [] | | [] m e]; try discriminate; reflexivity. Qed.

Lemma parse_lines_wf content :
  Forall (fun l => Num.wf_nonneg (lineTime l) = true)
         (omap parse_line (Str.split LF content)).
Proof.
  apply Forall_forall. intros l (line & _ & H)%list_elem_of_omap.
  eapply parse_line_wf, H.
Qed.

(** X6.  The sort of [parseLrc] is stable: the records of one and the
    same time stand in the output in the order of their lines in the
    input. *)
Theorem parseLrc_stable content v :
  List.filter (same_time v) (parseLrc content)
  = List.filter (same_time v) (omap parse_line (Str.split LF content)).
Proof.
  set (P := fun l => Num.wf_nonneg (lineTime l) && same_time v l).
  assert (forall ls, Forall (fun l => Num.wf_nonneg (lineTime l) = true) ls ->
                     List.filter (same_time v) ls = List.filter P ls) as HP.
  { intros ls F. apply List.filter_ext_in. intros l Hl.
    rewrite List.Forall_forall in F. unfold P. now rewrite (F l Hl). }
  rewrite !HP.
  - unfold parseLrc. cbv zeta. rewrite parse_lines_omap. cbn [app].
    apply Array_sort_filter. intros x y Hx Hy. unfold P, same_time in Hx, Hy.
    apply andb_true_iff in Hx as [Wx [Hx1 Hx2]%andb_true_iff].
    apply andb_true_iff in Hy as [Wy [Hy1 Hy2]%andb_true_iff].
    apply sub_le_not_gt; [assumption | assumption |].
    eapply num_le_trans; eassumption.
  - apply parse_lines_wf.
  - eapply Permutation_Forall; [| apply parse_lines_wf].
    symmetry. apply parseLrc_Permutation.
Qed.

(** ** Looking a record up at its own time *)

(** X7.  Every record of a parsed lyric is found again at its own time:
    [getCurrentLine] at the time of a record returns a record of that
    very time (the last of them when several lines share it). *)
Theorem getCurrentLine_at_own_time content l :
  l ∈ parseLrc content ->
  exists l', getCurrentLine (parseLrc content) (lineTime l) = Some l' /\
             l' ∈ parseLrc content /\
             same_time (lineTime l) l' = true.
Proof.
  intros [j Hj]%list_elem_of_lookup.
  pose proof (parseLrc_wf _ _ _ Hj) as Wl.
  assert (Num.le (lineTime l) (lineTime l) = true) as Hrefl.
  { apply num_le_refl. destruct (lineTime l); try discriminate; reflexivity. }
  unfold getCurrentLine.
  pose proof (getCurrentLine_from_spec (parseLrc content) (lineTime l)
                (length (parseLrc content)) (le_n _)) as H.
  pose proof (lookup_lt_Some _ _ _ Hj) as Hlt.
  destruct (getCurrentLine_from _ _ _) as [l' |].
  - destruct H as (i & Hi & Hl' & Hle & Hlast).
    exists l'. split; [reflexivity |].
    split; [eapply list_elem_of_lookup_2, Hl' |].
    unfold same_time. rewrite Hle. cbn [andb].
    destruct (Nat.lt_trichotomy j i) as [Hji | [-> | Hij]].
    + eapply (Sorted_time_le_lookup (parseLrc content) j i);
        [apply parseLrc_Sorted | assumption ..].
    + congruence.
    + rewrite (Hlast j l) in Hrefl; [discriminate | lia | assumption].
  - rewrite (H j l Hlt Hj) in Hrefl. discriminate.
Qed.

Lemma getCurrentLine_at_own_time_witness :
  let content := lit "[00:10] b" ++ LF :: lit "[00:05] a" ++ LF :: lit "[00:10] c" in
  line_at (Num.of_Z 10) "b" ∈ parseLrc content /\
  getCurrentLine (parseLrc content) (Num.of_Z 10) = Some (line_at (Num.of_Z 10) "c") /\
  exists l', getCurrentLine (parseLrc content) (Num.of_Z 10) = Some l' /\
             l' ∈ parseLrc content /\ same_time (Num.of_Z 10) l' = true.
Proof.
  intros content.
  assert (line_at (Num.of_Z 10) "b" ∈ parseLrc content) as H.
  { apply (list_elem_of_lookup_2 _ 1). reflexivity. }
  split; [exact H |]. split; [reflexivity |].
  exact (getCurrentLine_at_own_time content (line_at (Num.of_Z 10) "b") H).
Defined.

(** ** Lines are parsed one by one *)

Lemma omap_length_le {A B} (f : A -> option B) l :
  length (omap f l) <= length l.
Proof.
  induction l as [| x l IH]; cbn; [lia |]. destruct (f x); cbn; lia.
Qed.

(** X8.  The lines of the input are parsed independently of each other:
    the records of two inputs joined by a line feed are the records of
    the one together with the records of the other, and no input gives
    more records than it has lines. *)
Theorem parseLrc_line_by_line a b :
  parseLrc (a ++ LF :: b) ≡ₚ parseLrc a ++ parseLrc b /\
  length (parseLrc (a ++ LF :: b)) = length (parseLrc a) + length (parseLrc b) /\
  length (parseLrc a) <= length (Str.split LF a).
Proof.
  assert (parseLrc (a ++ LF :: b) ≡ₚ parseLrc a ++ parseLrc b) as H.
  { rewrite !parseLrc_Permutation, split_app_sep, omap_app. reflexivity. }
  split; [exact H |]. split.
  - rewrite H. apply length_app.
  - rewrite parseLrc_Permutation. apply omap_length_le.
Qed.

(** ** The times and the texts of the records *)

(** X9.  The time of every record of a parsed lyric is a number at least
    zero: never NaN and never negative, whatever the input. *)
Theorem parseLrc_times_nonneg content l :
  l ∈ parseLrc content ->
  Num.isNaN (lineTime l) = false /\ Num.ge (lineTime l) Num.zero = true.
Proof.
  intros [j Hj]%list_elem_of_lookup.
  pose proof (parseLrc_wf _ _ _ Hj) as Wl. split.
  - destruct (lineTime l); try discriminate; reflexivity.
  - now apply wf_nonneg_ge_zero.
Qed.

Lemma parseLrc_times_nonneg_witness :
  let content := lit "x[99:99.999]{a:b}" in
  let l := {| lineTime := Num.of_decimal false 6039999 (-3); text := lit "x";
              style := Some {[ lit "a" := StyleString (lit "b") ]} |} in
  parseLrc content = [l] /\ Num.ge (lineTime l) Num.zero = true.
Proof.
  intros content l.
  assert (parseLrc content = [l]) as E by (vm_compute; reflexivity).
  split; [exact E |].
  refine (proj2 (parseLrc_times_nonneg content l _)).
  rewrite E. apply list_elem_of_here.
Defined.

Lemma trim_idem s : Str.trim (Str.trim s) = Str.trim s.
Proof.
  unfold Str.trim at 1. rewrite trimStart_trim.
  unfold Str.trim. apply trimEnd_idem.
Qed.

Lemma trim_sublist s : Str.trim s `sublist_of` s.
Proof.
  destruct (trim_split s) as (w1 & w2 & E & _). rewrite E at 2.
  apply sublist_inserts_l, sublist_inserts_r. reflexivity.
Qed.

Lemma split_pieces sep s :
  Forall (Forall (fun c => c <> sep)) (Str.split sep s).
Proof.
  induction s as [| c s IH]; cbn.
  - repeat constructor.
  - destruct (N.eqb_spec c sep) as [-> | Hne].
    + constructor; [constructor | exact IH].
    + destruct (Str.split sep s) as [| p ps]; [repeat constructor; assumption |].
      inversion IH; subst. constructor; [now constructor | assumption].
Qed.

(** The text of a record is what is left of its line once pieces are cut
    out. *)
Lemma parse_line_text_sublist line l :
  parse_line line = Some l ->
  text l `sublist_of` line /\ Str.trim (text l) = text l.
Proof.
  intros H.
  destruct (parse_line_Some _ _ H) as (pre & g1 & g2 & post & F & _).
  rewrite (parse_line_first_tag _ _ _ _ _ F) in H. cbv zeta in H.
  destruct F as [(-> & _) _].
  assert (Str.trim (pre ++ post) `sublist_of` pre ++ tag g1 g2 ++ post) as S1.
  { etransitivity; [apply trim_sublist |].
    apply sublist_app; [reflexivity | apply sublist_inserts_l; reflexivity]. }
  remember (Str.trim (pre ++ post)) as d eqn:Ed.
  destruct (RegExp.exec styleRegex d) as [sm |] eqn:E;
    injection H as <-; cbn [text].
  - split; [| apply trim_idem].
    etransitivity; [apply trim_sublist |].
    etransitivity; [| exact S1].
    apply exec_Some in E as (E1 & E2 & _).
    apply styleRegex_inv in E2 as (cap & _ & E2 & _).
    rewrite E2 in E1. rewrite E1.
    apply sublist_app; [reflexivity |].
    apply sublist_cons, (sublist_inserts_l cap), sublist_cons. reflexivity.
  - split; [exact S1 | rewrite Ed; apply trim_idem].
Qed.

(** X10.  The text of every record of a parsed lyric is what is left of
    one line of the input after pieces of it are cut out; it contains no
    line feed, and no white space at its two ends. *)
Theorem parseLrc_text content l :
  l ∈ parseLrc content ->
  (exists line, line ∈ Str.split LF content /\ text l `sublist_of` line) /\
  Forall (fun c => c <> LF) (text l) /\
  Str.trim (text l) = text l.
Proof.
  intros (line & Hin & H)%elem_of_parseLrc.
  destruct (parse_line_text_sublist _ _ H) as [S T].
  split; [eauto |]. split; [| exact T].
  pose proof (split_pieces LF content) as F.
  rewrite Forall_forall in F. specialize (F line Hin).
  apply Forall_forall. intros c Hc. rewrite Forall_forall in F. apply F.
  eapply elem_of_sublist; eassumption.
Qed.

Lemma parseLrc_text_witness :
  let content := lit "intro" ++ LF :: lit "  la [00:01.50] la  {size:90} la " in
  let l := {| lineTime := Num.of_decimal false 15 (-1); text := lit "la  la   la";
              style := Some {[ lit "size" := StyleNumber (Num.of_Z 90) ]} |} in
  parseLrc content = [l] /\ Str.trim (text l) = text l.
Proof.
  intros content l.
  assert (parseLrc content = [l]) as E by (vm_compute; reflexivity).
  split; [exact E |].
  refine (proj2 (proj2 (parseLrc_text content l _))).
  rewrite E. apply list_elem_of_here.
Defined.

(** ** The entries of a style *)

Lemma split_Forall (P : N -> Prop) sep s :
  Forall P s -> Forall (Forall P) (Str.split sep s).
Proof.
  induction 1 as [| c s Hc _ IH]; cbn.
  - repeat constructor.
  - destruct (N.eqb c sep).
    + constructor; [constructor | exact IH].
    + destruct (Str.split sep s) as [| p ps]; [repeat constructor; assumption |].
      inversion IH; subst. constructor; [now constructor | assumption].
Qed.

Lemma trim_Forall (P : N -> Prop) s : Forall P s -> Forall P (Str.trim s).
Proof.
  intros F. apply Forall_forall. intros c Hc. rewrite Forall_forall in F.
  apply F. eapply elem_of_sublist; [exact Hc | apply trim_sublist].
Qed.

Lemma parse_pair_entries style seg :
  Forall (fun c => c <> code ",") seg ->
  (forall k x, style !! k = Some x -> entry_ok k x) ->
  forall k x, parse_pair style seg !! k = Some x -> entry_ok k x.
Proof.
  intros Fc I. unfold parse_pair.
  pose proof (split_pieces (code ":") seg) as F1.
  pose proof (split_Forall _ (code ":") seg Fc) as F2.
  destruct (Str.split (code ":") seg) as [| p1 [| p2 ps]]; cbn [map];
    try exact I.
  destruct (truthy (Str.trim p1) && truthy (Str.trim p2)) eqn:T; [| exact I].
  apply andb_true_iff in T as [T1%truthy_spec T2%truthy_spec].
  inversion F1 as [| ? ? C1 F1']; subst. inversion F1' as [| ? ? C2 _]; subst.
  inversion F2 as [| ? ? D1 F2']; subst. inversion F2' as [| ? ? D2 _]; subst.
  assert (forall p, Forall (fun c => c <> code ":") p ->
                    Forall (fun c => c <> code ",") p ->
                    Forall (fun c => c <> code ":" /\ c <> code ",") (Str.trim p))
    as HF.
  { intros p A B. apply trim_Forall. rewrite Forall_forall in *.
    intros c Hc. split; [now apply A | now apply B]. }
  rewrite parseFloat_trimmed. unfold Object_set.
  destruct (decide (Str.trim p1 = lit "__proto__")) as [| Hp]; [exact I |].
  intros k x. destruct (decide (k = Str.trim p1)) as [-> | Hne].
  - rewrite lookup_insert_eq. intros [= <-].
    split; [assumption |]. split; [apply trim_idem |].
    split; [assumption |]. split; [now apply HF |].
    destruct (starts_numeric (Str.trim p2)) eqn:E.
    + destruct (stored_value_number _ E) as (v & r & _ & -> & Hn). exact Hn.
    + rewrite (stored_value_string _ E).
      split; [assumption |]. split; [apply trim_idem |].
      split; [assumption |]. now apply HF.
  - rewrite lookup_insert_ne by congruence. apply I.
Qed.

(** X11.  Whatever the content of a style annotation, every entry of the
    style built from it has a key that is not empty, has no white space
    at its ends, contains no colon and no comma and is not [__proto__];
    a number stored is never NaN; a string stored is not empty, has no
    white space at its ends, contains no colon and no comma, and does not
    start like a number. *)
Theorem parse_style_entry_invariant content k x :
  parse_style content !! k = Some x -> entry_ok k x.
Proof.
  unfold parse_style.
  pose proof (split_pieces (code ",") content) as F.
  assert (forall k x, (∅ : StyleObject) !! k = Some x -> entry_ok k x) as I
      by (intros ? ?; rewrite lookup_empty; discriminate).
  revert k x. generalize dependent (∅ : StyleObject).
  induction F as [| seg segs Hseg _ IH]; intros style I; cbn [fold_left].
  - exact I.
  - apply IH. now apply parse_pair_entries.
Qed.

Lemma parse_style_entry_invariant_witness :
  let content := lit " font : gothic , size:12px, __proto__:1, x:" in
  parse_style content
  = {[ lit "font" := StyleString (lit "gothic");
       lit "size" := StyleNumber (Num.of_Z 12) ]} /\
  Str.trim (lit "font") = lit "font" /\
  starts_numeric (lit "gothic") = false.
Proof.
  intros content. split; [vm_compute; reflexivity |].
  assert (parse_style content !! lit "font" = Some (StyleString (lit "gothic")))
    as H by (vm_compute; reflexivity).
  pose proof (parse_style_entry_invariant content (lit "font")
                (StyleString (lit "gothic")) H) as (_ & T & _ & _ & _ & _ & S & _).
  split; [exact T | exact S].
Defined.

(** ** The overrides of a line *)

Lemma parse_style_last content seg :
  last (Str.split (code ",") content) = Some seg ->
  exists st, parse_style content = parse_pair st seg.
Proof.
  intros [l' E]%last_Some. unfold parse_style. rewrite E, fold_left_app.
  cbn [fold_left]. eauto.
Qed.

Lemma parseFloat_stored val :
  match stored_value (Str.trim val) with
  | StyleNumber n => n = parseFloat (Str.trim val)
  | StyleString s => s = Str.trim val /\ starts_numeric (Str.trim val) = false
  end.
Proof.
  unfold stored_value, parseFloat. rewrite trimStart_trim.
  destruct (scan_decimal_literal (Str.trim val)) as [[v r] |] eqn:E;
    [reflexivity |].
  split; [reflexivity | now apply scan_None_iff].
Qed.

(** The entry a last pair with key and value leaves in the style. *)
Lemma last_pair_stored content k v key :
  last (Str.split (code ",") content) = Some (k ++ code ":" :: v) ->
  no_colon k -> no_colon v -> Str.trim v <> [] ->
  Str.trim k = key -> key <> [] -> key <> lit "__proto__" ->
  parse_style content !! key = Some (stored_value (Str.trim v)).
Proof.
  intros (st & ->)%parse_style_last Hk Hv Tv <- Tk Hp.
  rewrite parse_pair_two by assumption.
  apply truthy_spec in Tk, Tv. rewrite Tk, Tv. cbn [andb].
  now apply Object_set_lookup.
Qed.

(** X12.  How the last pair [key:value] of a line's annotation reaches
    the component (white space around the key and the value is allowed,
    the value has no colon and is not blank).  [size] sets the font size
    only if the value starts like a number, and then to the number of its
    numeric prefix; [color] sets the colour only if the value does not
    start like a number, so that a colour written with a leading digit is
    ignored; [exit] and [escalate] switch the scatter and the diagonal
    effect on exactly for the values [scatter] and [diag]. *)
Theorem last_pair_overrides content k v l :
  style l = Some (parse_style content) ->
  last (Str.split (code ",") content) = Some (k ++ code ":" :: v) ->
  no_colon k -> no_colon v -> Str.trim v <> [] ->
  (Str.trim k = lit "size" ->
   forall baseFontSize,
     customSize l baseFontSize
     = if starts_numeric (Str.trim v) then parseFloat (Str.trim v)
       else baseFontSize) /\
  (Str.trim k = lit "color" ->
   forall primaryColor,
     activeColor l primaryColor
     = if starts_numeric (Str.trim v) then primaryColor else Str.trim v) /\
  (Str.trim k = lit "exit" ->
   isScatter l = bool_decide (Str.trim v = lit "scatter")) /\
  (Str.trim k = lit "escalate" ->
   isDiagonal l = bool_decide (Str.trim v = lit "diag")).
Proof.
  intros Hs Hlast Hk Hv Tv.
  pose proof (parseFloat_stored v) as Hst.
  assert (forall key : string,
            Str.trim k = lit key -> lit key <> [] -> lit key <> lit "__proto__" ->
            customStyle l !! lit key = Some (stored_value (Str.trim v))) as L.
  { intros key E N1 N2. unfold customStyle. rewrite Hs.
    eapply last_pair_stored; eassumption. }
  assert (forall key value : string,
            Str.trim k = lit key -> lit key <> [] -> lit key <> lit "__proto__" ->
            starts_numeric (lit value) = false ->
            style_is l key value = bool_decide (Str.trim v = lit value)) as Lis.
  { intros key value E N1 N2 Nv. unfold style_is. rewrite (L key E N1 N2).
    destruct (stored_value (Str.trim v)) as [s | n] eqn:S.
    - destruct Hst as [-> _]. reflexivity.
    - symmetry. apply bool_decide_eq_false. intros E'.
      rewrite E', (stored_value_string _ Nv) in S. discriminate. }
  repeat split.
  - intros E base. unfold customSize. rewrite (L "size"%string E) by (vm_compute; discriminate).
    destruct (stored_value (Str.trim v)) as [s | n] eqn:S.
    + destruct Hst as [_ ->]. reflexivity.
    + subst n. destruct (starts_numeric (Str.trim v)) eqn:S'; [reflexivity |].
      rewrite (stored_value_string _ S') in S. discriminate.
  - intros E primary. unfold activeColor.
    rewrite (L "color"%string E) by (vm_compute; discriminate).
    destruct (stored_value (Str.trim v)) as [s | n] eqn:S.
    + destruct Hst as [-> ->]. reflexivity.
    + destruct (starts_numeric (Str.trim v)) eqn:S'; [reflexivity |].
      rewrite (stored_value_string _ S') in S. discriminate.
  - intros E. apply (Lis "exit"%string "scatter"%string E);
      [vm_compute; discriminate | vm_compute; discriminate | reflexivity].
  - intros E. apply (Lis "escalate"%string "diag"%string E);
      [vm_compute; discriminate | vm_compute; discriminate | reflexivity].
Qed.

Lemma last_pair_overrides_witness :
  let content := lit "exit:scatter, color: 00ff00" in
  let l := {| lineTime := Num.of_Z 1; text := lit "a";
              style := Some (parse_style content) |} in
  last (Str.split (code ",") content) = Some (lit " color" ++ code ":" :: lit " 00ff00") /\
  starts_numeric (Str.trim (lit " 00ff00")) = true /\
  activeColor l (lit "#00f3ff") = lit "#00f3ff".
Proof.
  intros content l. split; [reflexivity |]. split; [reflexivity |].
  refine (proj1 (proj2 (last_pair_overrides content (lit " color") (lit " 00ff00")
                          l eq_refl eq_refl _ _ _)) eq_refl (lit "#00f3ff")).
  - repeat constructor.
  - repeat constructor.
  - vm_compute. discriminate.
Defined.

(** ** Emphasis *)

Lemma includes_unit_spec c t : includes_unit c t = true <-> c ∈ t.
Proof.
  unfold includes_unit. rewrite existsb_exists. split.
  - intros (x & Hx%list_elem_of_In & ->%N.eqb_eq). exact Hx.
  - intros H. exists c. split; [now apply list_elem_of_In | apply N.eqb_refl].
Qed.

(** X13.  The two tests for an exclamation mark, written in the two
    orders, agree: [getEmphasis] returns 2.5 exactly for the texts for
    which [hasExclamation] is true, which are the texts that contain an
    ASCII or a fullwidth exclamation mark; for the others it returns 1.8
    or 1.2. *)
Theorem getEmphasis_exclamation text :
  (getEmphasis text = Num.of_decimal false 25 (-1)
   <-> hasExclamation text = true) /\
  (hasExclamation text = true
   <-> code "!" ∈ text \/ FULLWIDTH_EXCLAMATION ∈ text) /\
  (hasExclamation text = false ->
   getEmphasis text = Num.of_decimal false 18 (-1) \/
   getEmphasis text = Num.of_decimal false 12 (-1)).
Proof.
  unfold getEmphasis, hasExclamation. cbv zeta.
  rewrite (orb_comm (includes_unit FULLWIDTH_EXCLAMATION text)).
  split; [| split].
  - destruct (includes_unit (code "!") text || includes_unit _ text);
      [tauto |].
    destruct ((0 <? length text) && (length text <=? 4));
      split; intros H; try discriminate H; vm_compute in H; discriminate H.
  - rewrite orb_true_iff, !includes_unit_spec. tauto.
  - intros ->. destruct ((0 <? length text) && (length text <=? 4)); tauto.
Qed.

Lemma getEmphasis_exclamation_witness :
  hasExclamation (lit "Go" ++ [FULLWIDTH_EXCLAMATION]) = true /\
  hasExclamation (lit "Go") = false /\
  (getEmphasis (lit "Go") = Num.of_decimal false 18 (-1) \/
   getEmphasis (lit "Go") = Num.of_decimal false 12 (-1)).
Proof.
  split; [reflexivity |]. split; [reflexivity |].
  exact (proj2 (proj2 (getEmphasis_exclamation (lit "Go"))) eq_refl).
Defined.

(** ** What is not a tag *)

Lemma timeRegex_needs_bracket c s :
  is_char "[" c = false -> timeRegex (c :: s) = None.
Proof.
  intros H. unfold timeRegex.
  destruct s as [| ? [| ? [| ? [| ? [| ? ?]]]]]; try reflexivity.
  now rewrite H.
Qed.

Lemma exec_timeRegex_no_bracket s :
  Forall (fun c => is_char "[" c = false) s -> RegExp.exec timeRegex s = None.
Proof.
  induction 1 as [| c s Hc _ IH]; [reflexivity |].
  cbn [RegExp.exec]. now rewrite (timeRegex_needs_bracket c s Hc), IH.
Qed.

Lemma exec_cons_None (re : regexp) c s :
  re (c :: s) = None -> RegExp.exec re s = None ->
  RegExp.exec re (c :: s) = None.
Proof. intros H1 H2. cbn [RegExp.exec]. now rewrite H1, H2. Qed.

Lemma digit_not_bracket c : is_digit c = true -> is_char "[" c = false.
Proof. intros H. now apply is_digit_not_char. Qed.

(** X14.  The fraction of the seconds has two or three digits: a
    bracketed time whose fraction has none, one, or four and more digits
    is not a tag, and a line with no other opening bracket gives no
    record. *)
Theorem fraction_of_two_or_three_digits pre m s frac post :
  Forall (fun c => is_char "[" c = false) pre ->
  Forall (fun c => is_char "[" c = false) post ->
  two_digits m = true -> two_digits s = true ->
  Forall (fun c => is_digit c = true) frac ->
  length frac <> 2 -> length frac <> 3 ->
  parse_line (pre ++ code "[" :: m ++ code ":" :: s ++ code "." :: frac
                  ++ code "]" :: post) = None.
Proof.
  intros Fpre Fpost Hm Hs Ffrac L2 L3.
  destruct m as [| a [| b [| ? ?]]]; try discriminate.
  destruct s as [| c [| d [| ? ?]]]; try discriminate.
  cbn [two_digits] in Hm, Hs.
  apply andb_true_iff in Hm as [Ha Hb], Hs as [Hc Hd].
  cbn [app].
  enough (RegExp.exec timeRegex
            (pre ++ code "[" :: a :: b :: code ":" :: c :: d :: code "."
                 :: frac ++ code "]" :: post) = None) as E.
  { unfold parse_line, RegExp.String_match. now rewrite E. }
  rewrite exec_skip.
  2:{ intros i Hi. rewrite drop_app_le by lia.
      pose proof (Forall_drop _ i _ Fpre) as Fd.
      pose proof (length_drop pre i) as Ld.
      destruct (drop i pre) as [| x r]; [cbn in Ld; lia |].
      cbn [app]. apply timeRegex_needs_bracket.
      now inversion Fd. }
  assert (RegExp.exec timeRegex
            (a :: b :: code ":" :: c :: d :: code "." :: frac ++ code "]" :: post)
          = None) as Etail.
  { apply exec_timeRegex_no_bracket.
    repeat (constructor; [first [now apply digit_not_bracket | reflexivity] |]).
    apply Forall_app. split.
    - eapply Forall_impl; [exact Ffrac |]. apply digit_not_bracket.
    - constructor; [reflexivity | exact Fpost]. }
  rewrite exec_cons_None; [reflexivity | | exact Etail].
  cbn [timeRegex].
  replace (is_char "[" (code "[")) with true by reflexivity.
  replace (is_char ":" (code ":")) with true by reflexivity.
  replace (is_char "]" (code ".")) with false by reflexivity.
  replace (is_char "." (code ".")) with true by reflexivity.
  rewrite Ha, Hb, Hc, Hd. cbn [andb].
  destruct frac as [| f1 [| f2 [| f3 [| f4 frac]]]]; cbn [app length] in *;
    try lia.
  - destruct post as [| ? [| ? ?]]; reflexivity.
  - destruct post as [| ? ?]; try reflexivity.
    replace (is_digit (code "]")) with false by reflexivity.
    now rewrite andb_false_r.
  - inversion Ffrac as [| ? ? H1 F1]; subst. inversion F1 as [| ? ? H2 F2]; subst.
    inversion F2 as [| ? ? H3 F3]; subst. inversion F3 as [| ? ? H4 _]; subst.
    rewrite H1, H2, H3. cbn [andb].
    rewrite (is_digit_not_char "]" f3 H3 eq_refl).
    rewrite (is_digit_not_char "]" f4 H4 eq_refl). reflexivity.
Qed.

Lemma fraction_of_two_or_three_digits_witness :
  parse_line (lit "[00:12.5] la") = None /\
  exists l, parse_line (lit "[00:12.50] la") = Some l.
Proof.
  split.
  - refine (fraction_of_two_or_three_digits [] (lit "00") (lit "12") (lit "5")
              (lit " la") _ _ eq_refl eq_refl _ _ _).
    + constructor.
    + repeat constructor.
    + repeat constructor.
    + vm_compute. discriminate.
    + vm_compute. discriminate.
  - eexists. vm_compute. reflexivity.
Defined.

(** ** The active index counts the started lines *)

Lemma filter_all {A} (f : A -> bool) l :
  Forall (fun x => f x = true) l -> List.filter f l = l.
Proof.
  induction 1 as [| x l Hx _ IH]; cbn; [reflexivity |]. now rewrite Hx, IH.
Qed.

Lemma filter_none {A} (f : A -> bool) l :
  Forall (fun x => f x = false) l -> List.filter f l = [].
Proof.
  induction 1 as [| x l Hx _ IH]; cbn; [reflexivity |]. now rewrite Hx, IH.
Qed.

(** X15.  On lines sorted by time, and so on every parsed lyric,
    [activeIndex + 1] is the number of lines that have started. *)
Theorem activeIndex_counts_started lines t :
  Sorted time_le lines ->
  (activeIndex lines t + 1)%Z
  = Z.of_nat (length (List.filter (fun l => Num.ge t (lineTime l)) lines)).
Proof.
  intros Hs. destruct (activeIndex_spec lines t) as (k & Hk & -> & Ha & Hn).
  rewrite <- (take_drop k lines) at 1. rewrite List.filter_app, length_app.
  rewrite filter_all, filter_none.
  - rewrite length_take. cbn. lia.
  - apply Forall_forall. intros l [i Hi]%list_elem_of_lookup.
    rewrite lookup_drop in Hi.
    destruct (lookup_lt_is_Some_2 lines k) as [lk Hlk];
      [apply lookup_lt_Some in Hi; lia |].
    pose proof (Hn lk Hlk) as Hnk.
    destruct i as [| i].
    + rewrite Nat.add_0_r in Hi. congruence.
    + destruct (Num.ge t (lineTime l)) eqn:E; [exfalso | reflexivity].
      assert (time_le lk l) as Hkl
          by (eapply (Sorted_time_le_lookup lines k (k + S i));
              try eassumption; lia).
      change (Num.ge t (lineTime l)) with (Num.le (lineTime l) t) in E.
      change (Num.ge t (lineTime lk)) with (Num.le (lineTime lk) t) in Hnk.
      pose proof (num_le_trans _ _ _ Hkl E). congruence.
  - apply Forall_forall. intros l [i Hi]%list_elem_of_lookup.
    apply lookup_take_Some in Hi as [Hi Hlt]. now apply (Ha i).
Qed.

Lemma activeIndex_counts_started_witness :
  let lines := parseLrc (lit "[00:10] b" ++ LF :: lit "[00:05] a" ++ LF
                         :: lit "[00:15] c") in
  Sorted time_le lines /\
  activeIndex lines (Num.of_Z 12) = 1%Z /\
  length (List.filter (fun l => Num.ge (Num.of_Z 12) (lineTime l)) lines) = 2.
Proof.
  intros lines.
  assert (Hs : Sorted time_le lines) by (vm_compute; repeat constructor).
  split; [exact Hs |]. split; [reflexivity |].
  pose proof (activeIndex_counts_started lines (Num.of_Z 12) Hs) as H.
  apply Nat2Z.inj. rewrite <- H. reflexivity.
Defined.

(** ** White space at the ends of a line *)

Lemma trim_snoc_space s c : is_space c = true -> Str.trim (s ++ [c]) = Str.trim s.
Proof.
  intros Hc. induction s as [| x s IH].
  - unfold Str.trim. cbn. now rewrite Hc.
  - unfold Str.trim in *. cbn [app Str.trimStart].
    destruct (is_space x); [exact IH |].
    change (x :: s ++ [c]) with ((x :: s) ++ [c]).
    unfold Str.trimEnd. rewrite rev_app_distr. cbn [rev app Str.trimStart].
    now rewrite Hc.
Qed.

Lemma trim_cons_space s c : is_space c = true -> Str.trim (c :: s) = Str.trim s.
Proof. intros Hc. unfold Str.trim. cbn. now rewrite Hc. Qed.

Lemma tag_at_snoc line c pre g1 g2 post :
  c <> code "]" ->
  tag_at (line ++ [c]) pre g1 g2 post <->
  exists post', post = post' ++ [c] /\ tag_at line pre g1 g2 post'.
Proof.
  intros Hc. split.
  - intros (E & T1 & T2).
    destruct post as [| x post' _] using rev_ind.
    + exfalso. rewrite app_nil_r in E.
      assert (pre ++ tag g1 g2
              = (pre ++ code "[" :: g1 ++ code ":" :: g2) ++ [code "]"]) as E'.
      { unfold tag. rewrite <- app_assoc. cbn [app]. now rewrite <- app_assoc. }
      rewrite E' in E. apply app_inj_tail in E as [_ E]. congruence.
    + rewrite !app_assoc in E. apply app_inj_tail in E as [E ->].
      exists post'. split; [reflexivity |]. split; [| tauto].
      now rewrite <- app_assoc in E.
  - intros (post' & -> & -> & T1 & T2). split; [| tauto].
    now rewrite <- !app_assoc.
Qed.

Lemma tag_at_cons line c pre g1 g2 post :
  c <> code "[" ->
  tag_at (c :: line) pre g1 g2 post <->
  exists pre', pre = c :: pre' /\ tag_at line pre' g1 g2 post.
Proof.
  intros Hc. split.
  - intros (E & T1 & T2). destruct pre as [| x pre'].
    + exfalso. unfold tag in E. cbn [app] in E. injection E as E _.
      apply Hc. rewrite E. reflexivity.
    + injection E as <- E. exists pre'. split; [reflexivity |]. now split.
  - intros (pre' & -> & -> & T1 & T2). split; [reflexivity | tauto].
Qed.

Lemma parse_line_snoc_space line c :
  is_space c = true -> parse_line (line ++ [c]) = parse_line line.
Proof.
  intros Hc.
  assert (c <> code "]") as Nc by (intros ->; discriminate).
  destruct (RegExp.exec timeRegex line) as [m |] eqn:E.
  - apply exec_first_tag in E as (g1 & g2 & _ & F).
    assert (first_tag (line ++ [c]) (before m) g1 g2 (after m ++ [c])) as F'.
    { destruct F as [T Hmin]. split.
      - apply tag_at_snoc; eauto.
      - intros pre' g1' g2' post' (post'' & _ & T')%tag_at_snoc; [| assumption].
        eapply Hmin, T'. }
    rewrite (parse_line_first_tag _ _ _ _ _ F).
    rewrite (parse_line_first_tag _ _ _ _ _ F').
    now rewrite app_assoc, trim_snoc_space.
  - apply exec_no_tag in E.
    transitivity (@None LrcLine); [| symmetry; now apply parse_line_None].
    apply parse_line_None.
    intros (pre & g1 & g2 & post & (post' & _ & T)%tag_at_snoc);
      [| assumption].
    apply E. eauto.
Qed.

Lemma parse_line_cons_space line c :
  is_space c = true -> parse_line (c :: line) = parse_line line.
Proof.
  intros Hc.
  assert (c <> code "[") as Nc by (intros ->; discriminate).
  destruct (RegExp.exec timeRegex line) as [m |] eqn:E.
  - apply exec_first_tag in E as (g1 & g2 & _ & F).
    assert (first_tag (c :: line) (c :: before m) g1 g2 (after m)) as F'.
    { destruct F as [T Hmin]. split.
      - apply tag_at_cons; eauto.
      - intros pre' g1' g2' post' (pre'' & -> & T')%tag_at_cons; [| assumption].
        cbn [length]. apply le_n_S. eapply Hmin, T'. }
    rewrite (parse_line_first_tag _ _ _ _ _ F).
    rewrite (parse_line_first_tag _ _ _ _ _ F').
    cbn [app]. now rewrite trim_cons_space.
  - apply exec_no_tag in E.
    transitivity (@None LrcLine); [| symmetry; now apply parse_line_None].
    apply parse_line_None.
    intros (pre & g1 & g2 & post & (pre' & _ & T)%tag_at_cons); [| assumption].
    apply E. eauto.
Qed.

(** X16.  White space at the ends of a line changes nothing: a line
    with white space put before it and after it gives the record of the
    line itself, or no record if the line gives none.  A carriage return
    is white space, so that a lyric with CR LF line ends is parsed as the
    same lyric with LF line ends. *)
Theorem parse_line_ignores_outer_space w1 line w2 :
  Forall (fun c => is_space c = true) w1 ->
  Forall (fun c => is_space c = true) w2 ->
  parse_line (w1 ++ line ++ w2) = parse_line line.
Proof.
  intros F1 F2. induction F1 as [| c w1 Hc _ IH].
  - cbn [app]. revert F2.
    induction w2 as [| c w2 IH] using rev_ind; intros F2.
    + now rewrite app_nil_r.
    + apply Forall_app in F2 as [F2 Hc].
      rewrite app_assoc, parse_line_snoc_space; [now apply IH |].
      now inversion Hc.
  - cbn [app]. now rewrite parse_line_cons_space.
Qed.

Lemma parse_line_ignores_outer_space_witness :
  is_space 13 = true /\
  parse_line (lit "[00:01] a {size:9}" ++ [13%N])
  = parse_line (lit "[00:01] a {size:9}") /\
  parseLrc (lit "[00:01] a" ++ 13%N :: LF :: lit "[00:02] b" ++ [13%N])
  = parseLrc (lit "[00:01] a" ++ LF :: lit "[00:02] b").
Proof.
  split; [reflexivity |]. split.
  - refine (parse_line_ignores_outer_space [] (lit "[00:01] a {size:9}") [13%N]
              _ _).
    + constructor.
    + repeat constructor.
  - vm_compute. reflexivity.
Defined.
